(** * Rectangle motion and jump animation: the scene builder and the motion evaluator

    Shallow embedding of [generateRectangles] and
    [updateMovingRectanglePosition] of [src/main.cpp] and of their copies in
    [main (2).cpp], of [generateRectangle] and of the body of the render
    loop of [main] (background colour and drawing loop), and proofs of their
    properties.

    A C++ [float] is an IEEE-754 binary32 number.  Its arithmetic is the
    Standard Library's [SpecFloat] at precision 24 and maximal exponent 128:
    every operation returns the exact result rounded to nearest, ties to
    even, with subnormal numbers, signed zeros, infinities and NaN.  The
    calls [fmod], [fabs] and [sin] on [float] arguments are taken at type
    [float] (the overloads of [<cmath>]), so that every intermediate result
    is a binary32 number; [fmod] and [fabs] are exact, and [sin] itself,
    which belongs to the C++ library, is a parameter of the evaluator. *)

From Stdlib Require Import ZArith List Bool Lia Permutation.
From Stdlib Require Import SpecFloat.
Import ListNotations.
Local Open Scope Z_scope.

(** ** binary32 arithmetic *)

Module B32.

Definition prec : Z := 24.
Definition emax : Z := 128.

Definition float := spec_float.

Definition add : float -> float -> float := SFadd prec emax.
Definition sub : float -> float -> float := SFsub prec emax.
Definition mul : float -> float -> float := SFmul prec emax.
Definition div : float -> float -> float := SFdiv prec emax.
Definition neg : float -> float := SFopp.
Definition fabs : float -> float := SFabs.
Definition ltb : float -> float -> bool := SFltb.
Definition leb : float -> float -> bool := SFleb.
Definition eqb : float -> float -> bool := SFeqb.

(** Conversion [int -> float] (exact below 2^24, rounded above). *)
Definition of_int (i : Z) : float := binary_normalize prec emax i 0 false.

(** A decimal literal [n/d] followed by the suffix [f]: the binary32 number
      nearest to the quotient.  Both [n] and [d] are below 2^24 wherever it is
      used, so the division rounds the exact quotient once. *)
Definition dec (n d : Z) : float := div (of_int n) (of_int d).

(** [fmod x y]: the remainder of the truncated division, with the sign of
      [x]; it is computed exactly on the two mantissas brought to the smaller
      exponent. *)
Definition fmod (x y : float) : float :=
    match x, y with
    | S754_nan, _ | _, S754_nan => S754_nan
    | S754_infinity _, _ => S754_nan
    | _, S754_zero _ => S754_nan
    | _, S754_infinity _ => x
    | S754_zero _, _ => x
    | S754_finite sx mx ex, S754_finite _ my ey =>
        let ez := Z.min ex ey in
        let a := Zpos (fst (shl_align mx ex ez)) in
        let b := Zpos (fst (shl_align my ey ez)) in
        binary_normalize prec emax (cond_Zopp sx (Z.rem a b)) ez sx
    end.

(** The values of the type [float]: canonical mantissa and exponent. *)
Definition valid (x : float) : bool := valid_binary prec emax x.

Definition is_finite (x : float) : bool :=
    match x with
    | S754_zero _ | S754_finite _ _ _ => true
    | _ => false
    end.

(** The next binary32 number below [x]. *)
Definition pred : float -> float := SFpred prec emax.

End B32.

Import B32.

Notation "x +! y" := (add x y) (at level 50, left associativity).
Notation "x -! y" := (sub x y) (at level 50, left associativity).
Notation "x *! y" := (mul x y) (at level 40, left associativity).
Notation "x /! y" := (div x y) (at level 40, left associativity).
Notation "x <! y" := (ltb x y) (at level 70, no associativity).
Notation "x >! y" := (ltb y x) (at level 70, no associativity).

(** ** Data model *)

(** [glm::vec3]. *)
Record vec3 : Type := Vec3 { vx : float; vy : float; vz : float }.

(** [struct Rectangle]; the declaration is the same in both files. *)
Record Rectangle : Type := mkRectangle {
  position : vec3;
  color : vec3;
  width : float;
  height : float;
  isStationary : bool
}.

(** [for (int i = lo; i < lo + n; ++i) body], threading the loop state. *)
Definition for_int {S : Type} (lo : Z) (n : nat) (body : Z -> S -> S) (s : S) : S :=
  fold_left (fun st k => body (lo + Z.of_nat k) st) (seq 0 n) s.

(** [v.push_back(x)]. *)
Definition push_back {A : Type} (v : list A) (x : A) : list A := v ++ [x].

(** ** src/main.cpp *)

Module Main.

Definition stationaryColors : list vec3 :=
    [ Vec3 (dec 9 10) (dec 1 10) (dec 1 10);
      Vec3 (dec 1 10) (dec 9 10) (dec 1 10);
      Vec3 (dec 1 10) (dec 2 10) (dec 95 100);
      Vec3 (of_int 1) (dec 8 10) (of_int 0) ].

Definition movingColors : list vec3 :=
    [ Vec3 (dec 9 10) (of_int 0) (dec 9 10);
      Vec3 (of_int 0) (dec 9 10) (dec 9 10);
      Vec3 (of_int 1) (dec 45 100) (of_int 0);
      Vec3 (dec 5 10) (of_int 0) (of_int 1) ].

Definition black : vec3 := Vec3 (of_int 0) (of_int 0) (of_int 0).

Definition spacing : float := dec 45 100.

Definition generateRectangles : list Rectangle :=
    let rectangles : list Rectangle := [] in
    let rectangles :=
      for_int 0 4 (fun i rectangles =>
        push_back rectangles
          {| position := Vec3 (neg (dec 7 10) +! of_int i *! spacing)
                              (neg (dec 5 10)) (of_int 0);
             color := nth (Z.to_nat i) stationaryColors black;
             width := dec 12 100;
             height := dec 18 100;
             isStationary := true |}) rectangles in
    let rectangles :=
      for_int 0 4 (fun i rectangles =>
        push_back rectangles
          {| position := Vec3 (neg (dec 12 10)) (dec 2 10) (of_int 0);
             color := nth (Z.to_nat i) movingColors black;
             width := dec 12 100;
             height := dec 15 100;
             isStationary := false |}) rectangles in
    rectangles.

Definition cycleTime : float := of_int 6.
Definition delayBetweenRectangles : float := dec 15 10.
Definition baseY : float := dec 2 10.
Definition jumpHeight : float := dec 35 100.
Definition stationaryPositions : list float :=
    [ neg (dec 7 10); neg (dec 25 100); dec 2 10; dec 65 100 ].
Definition jumpRadius : float := dec 12 100.
(** The literal [3.14159f]. *)
Definition pi_lit : float := dec 314159 100000.

Section Evaluator.

(** [sin] of the C++ mathematics library at type [float]; the library is
        not part of the repository. *)
Variable sin : float -> float.

(** [time - rectIndex * delayBetweenRectangles]. *)
Definition adjustedTime0 (time : float) (rectIndex : Z) : float :=
      time -! of_int rectIndex *! delayBetweenRectangles.

(** The horizontal position computed from the adjusted time of a started
        rectangle, with the guard [if (x > 1.2f) x = -1.2f]. *)
Definition horizontal (adjustedTime : float) : float :=
      let adjustedTime := fmod adjustedTime cycleTime in
      let x := neg (dec 12 10) +! (adjustedTime /! cycleTime) *! dec 24 10 in
      if x >! dec 12 10 then neg (dec 12 10) else x.

(** The increment of [y] inside the loop body. *)
Definition jumpOffset (x stationaryX : float) : float :=
      let jumpFactor := of_int 1 -! fabs (x -! stationaryX) /! jumpRadius in
      jumpHeight *! sin (jumpFactor *! pi_lit).

(** [for (float stationaryX : stationaryPositions) { if (...) { y += ...; break; } }] *)
Fixpoint jumpLoop (x y : float) (positions : list float) : float :=
      match positions with
      | [] => y
      | stationaryX :: rest =>
          if fabs (x -! stationaryX) <! jumpRadius
          then y +! jumpOffset x stationaryX
          else jumpLoop x y rest
      end.

Definition updateMovingRectanglePosition
        (rect : Rectangle) (time : float) (rectIndex : Z) : vec3 :=
      let adjustedTime := adjustedTime0 time rectIndex in
      if adjustedTime <! of_int 0 then
        Vec3 (neg (dec 12 10)) (dec 2 10) (of_int 0)
      else
        let x := horizontal adjustedTime in
        let y := baseY in
        let y := jumpLoop x y stationaryPositions in
        Vec3 x y (of_int 0).

End Evaluator.

End Main.

(** ** main (2).cpp *)

Module Main2.

Definition stationaryColors : list vec3 :=
    [ Vec3 (dec 9 10) (dec 1 10) (dec 1 10);
      Vec3 (dec 1 10) (dec 9 10) (dec 1 10);
      Vec3 (dec 1 10) (dec 2 10) (dec 95 100);
      Vec3 (of_int 1) (dec 8 10) (of_int 0) ].

Definition movingColors : list vec3 :=
    [ Vec3 (dec 9 10) (of_int 0) (dec 9 10);
      Vec3 (of_int 0) (dec 9 10) (dec 9 10);
      Vec3 (of_int 1) (dec 45 100) (of_int 0);
      Vec3 (dec 5 10) (of_int 0) (of_int 1) ].

Definition generateRectangles : list Rectangle :=
    let spacing := dec 45 100 in
    let stationary :=
      for_int 0 4 (fun i rectangles =>
        push_back rectangles
          (mkRectangle
             (Vec3 (neg (dec 7 10) +! of_int i *! spacing) (neg (dec 5 10)) (of_int 0))
             (nth (Z.to_nat i) stationaryColors Main.black)
             (dec 12 100) (dec 18 100) true)) [] in
    for_int 0 4 (fun i rectangles =>
      push_back rectangles
        (mkRectangle
           (Vec3 (neg (dec 12 10)) (dec 2 10) (of_int 0))
           (nth (Z.to_nat i) movingColors Main.black)
           (dec 12 100) (dec 15 100) false)) stationary.

Section Evaluator.

Variable sin : float -> float.

Fixpoint jumpLoop (jumpHeight jumpRadius x y : float) (positions : list float) : float :=
      match positions with
      | [] => y
      | stationaryX :: rest =>
          if fabs (x -! stationaryX) <! jumpRadius then
            let jumpFactor := of_int 1 -! fabs (x -! stationaryX) /! jumpRadius in
            y +! jumpHeight *! sin (jumpFactor *! dec 314159 100000)
          else jumpLoop jumpHeight jumpRadius x y rest
      end.

Definition updateMovingRectanglePosition
        (rect : Rectangle) (time : float) (rectIndex : Z) : vec3 :=
      let cycleTime := of_int 6 in
      let delayBetweenRectangles := dec 15 10 in
      let adjustedTime := time -! of_int rectIndex *! delayBetweenRectangles in
      if adjustedTime <! of_int 0 then
        Vec3 (neg (dec 12 10)) (dec 2 10) (of_int 0)
      else
        let adjustedTime := fmod adjustedTime cycleTime in
        let baseY := dec 2 10 in
        let x := neg (dec 12 10) +! (adjustedTime /! cycleTime) *! dec 24 10 in
        let x := if x >! dec 12 10 then neg (dec 12 10) else x in
        let y := baseY in
        let jumpHeight := dec 35 100 in
        let stationaryPositions :=
          [ neg (dec 7 10); neg (dec 25 100); dec 2 10; dec 65 100 ] in
        let jumpRadius := dec 12 100 in
        let y := jumpLoop jumpHeight jumpRadius x y stationaryPositions in
        Vec3 x y (of_int 0).

End Evaluator.

End Main2.

(** ** src/main.cpp: the vertex template and the body of the render loop *)

Module Render.

(** [struct RectangleVertex]. *)
Record RectangleVertex : Type := mkRectangleVertex { vertices : list float }.

(** [generateRectangle]: two triangles, three coordinates per vertex. *)
Definition generateRectangle (width height : float) : RectangleVertex :=
  let w := width /! of_int 2 in
  let h := height /! of_int 2 in
  let rect_vertices :=
    [ neg w; neg h; of_int 0;
      w; neg h; of_int 0;
      w; h; of_int 0 ] in
  mkRectangleVertex
    (rect_vertices ++
     [ neg w; neg h; of_int 0;
       w; h; of_int 0;
       neg w; h; of_int 0 ]).

(** [int vertexCount = rectTemplate.vertices.size() / 3]. *)
Definition vertexCount (rectTemplate : RectangleVertex) : Z :=
  Z.of_nat (length (vertices rectTemplate)) / 3.

(** What one iteration of the drawing loop hands to the graphics library:
    the vector given to [glm::translate] and the colour given to
    [glUniform3f]. *)
Record DrawCall : Type := mkDrawCall { translation : vec3; uColor : vec3 }.

Section Frame.

Variable sin : float -> float.

(** The three components given to [glClearColor]. *)
Definition backgroundColor (time : float) : vec3 :=
  let bgR := dec 15 100 +! dec 35 100 *! (dec 5 10 +! dec 5 10 *! sin (time *! dec 5 10)) in
  let bgG := dec 12 100
             +! dec 35 100 *! (dec 5 10 +! dec 5 10 *! sin (time *! dec 7 10 +! of_int 2)) in
  let bgB := dec 2 10
             +! dec 35 100 *! (dec 5 10 +! dec 5 10 *! sin (time *! dec 9 10 +! of_int 4)) in
  Vec3 bgR bgG bgB.

(** The body of [for (int i = 0; i < rectangles.size(); ++i)]: the state is
    [movingRectIndex] and the draw calls issued so far.  The index is an
    [int]; it cannot wrap before the scene holds 2^31 moving rectangles. *)
Definition drawStep (time : float) (st : Z * list DrawCall) (rect : Rectangle)
    : Z * list DrawCall :=
  let '(movingRectIndex, calls) := st in
  let pos := position rect in
  let '(pos, movingRectIndex) :=
    if negb (isStationary rect)
    then (Main.updateMovingRectanglePosition sin rect time movingRectIndex,
          movingRectIndex + 1)
    else (pos, movingRectIndex) in
  (movingRectIndex, push_back calls (mkDrawCall pos (color rect))).

Definition drawRectangles (rectangles : list Rectangle) (time : float) : list DrawCall :=
  let movingRectIndex := 0 in
  snd (fold_left (drawStep time) rectangles (movingRectIndex, [])).

(** The draw calls of the loop over [rectangles] entered with
    [movingRectIndex = k], written as a recursion on the list. *)
Fixpoint drawFrom (time : float) (k : Z) (rectangles : list Rectangle) : list DrawCall :=
  match rectangles with
  | [] => []
  | rect :: rest =>
      if isStationary rect
      then mkDrawCall (position rect) (color rect) :: drawFrom time k rest
      else mkDrawCall (Main.updateMovingRectanglePosition sin rect time k) (color rect)
           :: drawFrom time (k + 1) rest
  end.

End Frame.

End Render.

(** * Definitions used to state and prove the properties *)

(** ** Exact values of binary32 numbers

    Every finite binary32 number is an integer multiple of 2^-149, the
    smallest subnormal.  [ord x] is that integer; it is 0 for both zeros and,
    by convention, for infinities and NaN (which the lemmas exclude with
    [fin]). *)

Definition emin32 : Z := -149.

Definition mag (m : positive) (e : Z) : Z := Zpos m * 2 ^ (e - emin32).

Definition ord (x : float) : Z :=
  match x with
  | S754_finite s m e => cond_Zopp s (mag m e)
  | _ => 0
  end.

Definition signbit (x : float) : bool :=
  match x with
  | S754_zero s | S754_infinity s | S754_finite s _ _ => s
  | S754_nan => false
  end.

(** The finite values of the type [float]. *)
Definition fin (x : float) : Prop := valid x = true /\ is_finite x = true.

(** The exponent function of the format. *)
Definition fexp32 (e : Z) : Z := Z.max (e - 24) emin32.

(** ** Rounding to nearest, ties to even, on exact quotients

    [locate r d] is the position of the remainder [r] of a division by [d]
    with respect to the half of [d].  [rnd P D] is the quotient [P / D],
    counted in units of 2^-149, rounded to the nearest number with 24
    significant bits; [srnd] is its odd extension to all integers. *)

Definition locate (r d : Z) : location :=
  if r =? 0 then loc_Exact else loc_Inexact (2 * r ?= d).

Definition rnd (P D : Z) : Z :=
  let n := Z.max 0 (Z.log2 (P / D) - 23) in
  round_nearest_even (P / (D * 2 ^ n)) (locate (P mod (D * 2 ^ n)) (D * 2 ^ n)) * 2 ^ n.

Definition srnd (N : Z) : Z := Z.sgn N * rnd (Z.abs N) 1.

(** The state of the shifter of [SpecFloat] after [k] right shifts of the
    quotient [P / D]. *)
Definition shr_inv (P D k : Z) (st : shr_record) : Prop :=
  shr_m st = P / (D * 2 ^ k) /\
  loc_of_shr_record st = locate (P mod (D * 2 ^ k)) (D * 2 ^ k).

(** A quotient [P / D] counted in units of 2^e, recounted in units of 2^-149. *)
Definition scaleP (P e : Z) : Z := P * 2 ^ Z.max 0 (e - emin32).
Definition scaleD (D e : Z) : Z := D * 2 ^ Z.max 0 (emin32 - e).

(** [R] is the binary32 number of sign [s] and magnitude [z] (in units of
    2^-149), or the infinity of that sign when [z] is beyond the largest
    finite number. *)
Definition rounds_to (R : float) (s : bool) (z : Z) : Prop :=
  valid R = true /\
  ((z = 0 /\ R = S754_zero s) \/
   (0 < z < 2 ^ 277 /\ exists m e, R = S754_finite s m e /\ Zpos m * 2 ^ (e - emin32) = z) \/
   (2 ^ 277 <= z /\ R = S754_infinity s)).

Definition srounds_to (R : float) (szero : bool) (N : Z) : Prop :=
  match N ?= 0 with
  | Eq => R = S754_zero szero
  | Gt => rounds_to R false (rnd N 1)
  | Lt => rounds_to R true (rnd (- N) 1)
  end.

(** ** Vocabulary of the properties *)

Definition xs_of (l : list Rectangle) : list float := map (fun r => vx (position r)) l.
Definition ys_of (l : list Rectangle) : list float := map (fun r => vy (position r)) l.

(** The test of the loop: the obstacle is nearer than the jump radius. *)
Definition near (x stationaryX : float) : bool :=
  fabs (x -! stationaryX) <! Main.jumpRadius.

(** The cycle length 6.0 in units of 2^-149. *)
Definition D6 : Z := ord Main.cycleTime.

(** The number of cycles completed at the adjusted time [a]. *)
Definition cycle_of (a : float) : Z := ord a / D6.

(** The horizontal position in terms of the exact adjusted time [a]:
    remainder modulo the cycle, division by the cycle, multiplication by
    2.4f and addition of -1.2f, each rounded once. *)
Definition x_of (a : Z) : Z :=
  srnd (ord (neg (dec 12 10))
        + rnd (rnd ((a mod D6) * 2 ^ 149) D6 * ord (dec 24 10)) (2 ^ 149)).

(** A moving rectangle of the scene and two stand-ins for the library sine,
    used to evaluate the theorems at concrete inputs. *)
Definition rect0 : Rectangle :=
  mkRectangle (Vec3 (neg (dec 12 10)) (dec 2 10) (of_int 0))
              (Vec3 (dec 9 10) (of_int 0) (dec 9 10)) (dec 12 100) (dec 15 100) false.

Definition sin_id : float -> float := fun a => a.
Definition sin_half : float -> float := fun _ => dec 5 10.

(** The number of moving rectangles among the first [n] of the scene. *)
Definition moving_before (n : nat) (rectangles : list Rectangle) : Z :=
  Z.of_nat (length (filter (fun r => negb (isStationary r)) (firstn n rectangles))).

(** The horizontal position before the guard [if (x > 1.2f)]. *)
Definition unguarded (adjustedTime : float) : float :=
  neg (dec 12 10) +! (fmod adjustedTime Main.cycleTime /! Main.cycleTime) *! dec 24 10.

(** 2^-125, twice the smallest normal number: from here on halving is exact. *)
Definition two_pow_m125 : float := S754_finite false 8388608 (-148).

(** A stand-in for the library sine that takes negative values. *)
Definition sin_neg : float -> float := fun _ => neg (dec 5 10).

(** * Properties *)

(** Closed goals are decided by evaluation; [fin_const] shows that a constant
    is a finite number of the type. *)
Ltac closed := vm_compute; reflexivity.
Ltac fin_const := split; reflexivity.

(** ** The literals of the program

    The binary32 numbers that the decimal literals denote, for reference:
    mantissa and exponent of the nearest number. *)

Example literals_of_generateRectangles :
  dec 7 10 = S754_finite false 11744051 (-24) /\
  dec 45 100 = S754_finite false 15099494 (-25) /\
  dec 5 10 = S754_finite false 8388608 (-24) /\
  dec 12 100 = S754_finite false 16106127 (-27) /\
  dec 18 100 = S754_finite false 12079596 (-26) /\
  dec 15 100 = S754_finite false 10066330 (-26).
Proof. repeat split; closed. Qed.

Example literals_of_updateMovingRectanglePosition :
  Main.cycleTime = S754_finite false 12582912 (-21) /\
  Main.delayBetweenRectangles = S754_finite false 12582912 (-23) /\
  dec 12 10 = S754_finite false 10066330 (-23) /\
  dec 24 10 = S754_finite false 10066330 (-22) /\
  Main.baseY = S754_finite false 13421773 (-26) /\
  Main.jumpHeight = S754_finite false 11744051 (-25) /\
  Main.jumpRadius = S754_finite false 16106127 (-27) /\
  Main.pi_lit = S754_finite false 13176784 (-22) /\
  Main.stationaryPositions
    = [ S754_finite true 11744051 (-24); S754_finite true 8388608 (-25);
        S754_finite false 13421773 (-26); S754_finite false 10905190 (-24) ].
Proof. repeat split; closed. Qed.

Example peak_height : Main.baseY +! Main.jumpHeight = dec 55 100.
Proof. closed. Qed.

Example fmod_examples :
  fmod (dec 75 10) (of_int 6) = dec 15 10 /\
  fmod (neg (dec 75 10)) (of_int 6) = neg (dec 15 10) /\
  fmod (of_int 6) (of_int 6) = of_int 0 /\
  fmod (of_int 5) (of_int 6) = of_int 5.
Proof. repeat split; closed. Qed.

(** ** Digits and the shifter of [SpecFloat] *)

Lemma digits2_bounds (m : positive) :
  2 ^ (Zpos (digits2_pos m) - 1) <= Zpos m < 2 ^ Zpos (digits2_pos m).
Proof.
  induction m as [p IH|p IH|]; simpl digits2_pos; rewrite ?Pos2Z.inj_succ.
  - replace (Z.succ (Zpos (digits2_pos p)) - 1) with (Z.succ (Zpos (digits2_pos p) - 1)) by lia.
    rewrite !Z.pow_succ_r by lia. rewrite (Pos2Z.inj_xI p).
    revert IH. generalize (2 ^ (Zpos (digits2_pos p) - 1)) (2 ^ Zpos (digits2_pos p)).
    intros; lia.
  - replace (Z.succ (Zpos (digits2_pos p)) - 1) with (Z.succ (Zpos (digits2_pos p) - 1)) by lia.
    rewrite !Z.pow_succ_r by lia. rewrite (Pos2Z.inj_xO p).
    revert IH. generalize (2 ^ (Zpos (digits2_pos p) - 1)) (2 ^ Zpos (digits2_pos p)).
    intros; lia.
  - simpl. lia.
Qed.

Lemma pow2_pos (k : Z) : 0 <= k -> 0 < 2 ^ k.
Proof. intros. apply Z.pow_pos_nonneg; lia. Qed.

Lemma pow2_lt_inv (a b : Z) : 0 <= b -> 2 ^ a < 2 ^ b -> a < b.
Proof. intros Hb H. apply (Z.pow_lt_mono_r_iff 2); lia. Qed.

Lemma pow2_le (a b : Z) : 0 <= a <= b -> 2 ^ a <= 2 ^ b.
Proof. intros. apply Z.pow_le_mono_r; lia. Qed.

Lemma Zdigits2_bounds (M : Z) :
  0 < M -> 2 ^ (Zdigits2 M - 1) <= M < 2 ^ Zdigits2 M.
Proof. destruct M; try lia. intros _. apply digits2_bounds. Qed.

Lemma Zdigits2_nonneg (M : Z) : 0 <= Zdigits2 M.
Proof. destruct M; simpl; lia. Qed.

Lemma Zdigits2_unique (M d : Z) :
  0 < d -> 2 ^ (d - 1) <= M < 2 ^ d -> Zdigits2 M = d.
Proof.
  intros Hd [H1 H2].
  assert (0 < M) by (pose proof (pow2_pos (d - 1)); lia).
  pose proof (Zdigits2_bounds M H) as [B1 B2].
  pose proof (Zdigits2_nonneg M).
  assert (Zdigits2 M - 1 < d) by (apply pow2_lt_inv; lia).
  assert (d - 1 < Zdigits2 M) by (apply pow2_lt_inv; lia).
  lia.
Qed.

Lemma shr_1_fields (st : shr_record) :
  0 <= shr_m st ->
  shr_m (shr_1 st) = shr_m st / 2 /\
  shr_r (shr_1 st) = Z.odd (shr_m st) /\
  shr_s (shr_1 st) = shr_r st || shr_s st.
Proof.
  destruct st as [m r s]. simpl shr_m. intros Hm.
  destruct m as [|[p|p|]|]; try lia; simpl; repeat split.
  - apply Z.div_unique with 1; lia.
  - apply Z.div_unique with 0; lia.
Qed.

Lemma loc_record_exact (st : shr_record) (r d : Z) :
  loc_of_shr_record st = locate r d -> (shr_r st || shr_s st = false <-> r = 0).
Proof.
  destruct st as [m [|] [|]]; unfold locate; simpl;
    destruct (Z.eqb_spec r 0); intros H; split; intros; try discriminate; try lia; auto.
  all: destruct (2 * r ?= d); discriminate.
Qed.

Lemma loc_record_cases (st : shr_record) :
  loc_of_shr_record st =
    match shr_r st, shr_s st with
    | false, false => loc_Exact
    | false, true => loc_Inexact Lt
    | true, false => loc_Inexact Eq
    | true, true => loc_Inexact Gt
    end.
Proof. destruct st as [m [|] [|]]; reflexivity. Qed.

(** One right shift keeps the quotient and the position of the remainder. *)
Lemma shr_1_inv (P D k : Z) (st : shr_record) :
  0 <= P -> 0 < D -> 0 <= k ->
  shr_inv P D k st -> shr_inv P D (k + 1) (shr_1 st).
Proof.
  intros HP HD Hk [Hm Hl].
  pose proof (pow2_pos k Hk) as H2k.
  set (Dn := D * 2 ^ k) in *.
  assert (HDn : 0 < Dn) by (unfold Dn; lia).
  assert (E : D * 2 ^ (k + 1) = Dn * 2)
    by (unfold Dn; rewrite Z.pow_add_r by lia; change (2 ^ 1) with 2; lia).
  assert (Hm0 : 0 <= shr_m st) by (rewrite Hm; apply Z.div_pos; lia).
  destruct (shr_1_fields st Hm0) as (Fm & Fr & Fs).
  pose proof (loc_record_exact st _ _ Hl) as Hex.
  pose proof (Z.mod_pos_bound P Dn HDn) as Hrem.
  assert (Hrem' : P mod (Dn * 2) = P mod Dn + Dn * ((P / Dn) mod 2))
    by (apply Z.rem_mul_r; lia).
  unfold shr_inv. rewrite E. split.
  - rewrite Fm, Hm. apply Z.div_div; lia.
  - rewrite loc_record_cases, Fr, Fs, Hrem'.
    assert (Hodd : (P / Dn) mod 2 = if Z.odd (shr_m st) then 1 else 0).
    { rewrite <- Hm. rewrite Zmod_odd. reflexivity. }
    rewrite Hodd. unfold locate.
    destruct (Z.odd (shr_m st)), (shr_r st || shr_s st) eqn:Ers.
    + assert (P mod Dn <> 0) by (intro A; apply Hex in A; congruence).
      destruct (Z.eqb_spec (P mod Dn + Dn * 1) 0); [lia|].
      f_equal. symmetry. apply Z.compare_gt_iff. lia.
    + assert (P mod Dn = 0) by (apply Hex; reflexivity).
      destruct (Z.eqb_spec (P mod Dn + Dn * 1) 0); [lia|].
      f_equal. symmetry. apply Z.compare_eq_iff. lia.
    + assert (P mod Dn <> 0) by (intro A; apply Hex in A; congruence).
      destruct (Z.eqb_spec (P mod Dn + Dn * 0) 0); [lia|].
      f_equal. symmetry. apply Z.compare_lt_iff. lia.
    + assert (P mod Dn = 0) by (apply Hex; reflexivity).
      destruct (Z.eqb_spec (P mod Dn + Dn * 0) 0); [reflexivity|lia].
Qed.

Lemma iter_shr_inv (p : positive) :
  forall (P D k : Z) (st : shr_record),
  0 <= P -> 0 < D -> 0 <= k ->
  shr_inv P D k st -> shr_inv P D (k + Zpos p) (iter_pos shr_1 p st).
Proof.
  induction p as [p IH|p IH|]; intros P D k st HP HD Hk H; simpl iter_pos.
  - replace (k + Zpos p~1) with (k + 1 + Zpos p + Zpos p) by lia.
    apply IH; try lia. apply IH; try lia. apply shr_1_inv; auto.
  - replace (k + Zpos p~0) with (k + Zpos p + Zpos p) by lia.
    apply IH; try lia. apply IH; try lia. exact H.
  - apply shr_1_inv; auto.
Qed.

(** ** [binary_round_aux] rounds to nearest, ties to even *)

Lemma fexp32_eq (e : Z) : fexp prec emax e = fexp32 e.
Proof. reflexivity. Qed.

Lemma rne_bounds (m : Z) (l : location) :
  m <= round_nearest_even m l <= m + 1.
Proof.
  destruct l as [|[| |]]; simpl; try lia. destruct (Z.even m); lia.
Qed.

Lemma locate_scale (r d c : Z) : 0 < c -> locate (r * c) (d * c) = locate r d.
Proof.
  intros Hc. unfold locate.
  destruct (Z.eqb_spec r 0) as [->|Hr].
  - reflexivity.
  - destruct (Z.eqb_spec (r * c) 0) as [E|_]; [nia|].
    f_equal. replace (2 * (r * c)) with (2 * r * c) by lia.
    destruct (Z.compare_spec (2 * r) d) as [H|H|H].
    + subst d. apply Z.compare_refl.
    + apply Z.compare_lt_iff. nia.
    + apply Z.compare_gt_iff. nia.
Qed.

Lemma div_scale (P D c : Z) : 0 < D -> 0 < c -> (P * c) / (D * c) = P / D.
Proof. intros. apply Z.div_mul_cancel_r; lia. Qed.

Lemma mod_scale (P D c : Z) : 0 < D -> 0 < c -> (P * c) mod (D * c) = (P mod D) * c.
Proof. intros. apply Z.mul_mod_distr_r; lia. Qed.

Lemma loc_of_loc (m : Z) (l : location) :
  loc_of_shr_record (shr_record_of_loc m l) = l /\ shr_m (shr_record_of_loc m l) = m.
Proof. destruct l as [|[| |]]; split; reflexivity. Qed.

(** The first step of [binary_round_aux]: the mantissa is shifted to the
    exponent of the format, and the shifter records where the discarded part
    lies. *)
Lemma shr_fexp_spec (M e : Z) (l : location) (P D : Z) :
  0 <= P -> 0 < D -> M = P / D -> l = locate (P mod D) D ->
  e <= fexp32 (Zdigits2 M + e) ->
  exists st, shr_fexp prec emax M e l = (st, fexp32 (Zdigits2 M + e))
             /\ shr_inv P D (fexp32 (Zdigits2 M + e) - e) st.
Proof.
  intros HP HD HM Hl Hn. unfold shr_fexp. rewrite fexp32_eq.
  set (E := fexp32 (Zdigits2 M + e)) in *.
  destruct (loc_of_loc M l) as [L1 L2].
  assert (I0 : shr_inv P D 0 (shr_record_of_loc M l)).
  { unfold shr_inv. change (2 ^ 0) with 1. rewrite Z.mul_1_r. rewrite L1, L2. auto. }
  unfold shr. destruct (E - e) as [|p|p] eqn:En; try lia.
  - exists (shr_record_of_loc M l). split; [f_equal; lia|exact I0].
  - exists (iter_pos shr_1 p (shr_record_of_loc M l)). split; [f_equal; lia|].
    replace (Z.pos p) with (0 + Z.pos p) by lia. apply iter_shr_inv; auto; lia.
Qed.

Lemma pow2_split (a b : Z) : 0 <= a -> 0 <= b -> 2 ^ (a + b) = 2 ^ a * 2 ^ b.
Proof. intros. apply Z.pow_add_r; lia. Qed.

Lemma unit_scale (P D e E : Z) :
  0 <= P -> 0 < D -> e <= E -> emin32 <= E ->
  P / (D * 2 ^ (E - e)) = scaleP P e / (scaleD D e * 2 ^ (E - emin32)) /\
  locate (P mod (D * 2 ^ (E - e))) (D * 2 ^ (E - e))
    = locate (scaleP P e mod (scaleD D e * 2 ^ (E - emin32))) (scaleD D e * 2 ^ (E - emin32)).
Proof.
  intros HP HD HeE HE. unfold scaleP, scaleD.
  pose proof (pow2_pos (E - e) ltac:(lia)) as H1.
  destruct (Z_le_gt_dec emin32 e) as [Hc|Hc].
  - replace (Z.max 0 (e - emin32)) with (e - emin32) by lia.
    replace (Z.max 0 (emin32 - e)) with 0 by lia.
    change (2 ^ 0) with 1. rewrite Z.mul_1_r.
    replace (E - emin32) with ((E - e) + (e - emin32)) by lia.
    rewrite pow2_split by lia.
    pose proof (pow2_pos (e - emin32) ltac:(lia)) as H2.
    rewrite Z.mul_assoc.
    rewrite div_scale, mod_scale, locate_scale by lia. auto.
  - replace (Z.max 0 (e - emin32)) with 0 by lia.
    replace (Z.max 0 (emin32 - e)) with (emin32 - e) by lia.
    change (2 ^ 0) with 1. rewrite Z.mul_1_r.
    replace (E - e) with ((emin32 - e) + (E - emin32)) by lia.
    rewrite pow2_split by lia. rewrite Z.mul_assoc. auto.
Qed.

Lemma floor_bounds (P D : Z) : 0 < D -> (P / D) * D <= P < (P / D + 1) * D.
Proof.
  intros HD. pose proof (Z.div_mod P D ltac:(lia)).
  pose proof (Z.mod_pos_bound P D HD). nia.
Qed.

Lemma le_scale3 (D X M P A : Z) :
  0 < D -> 0 < A -> X <= M -> M * D <= P -> D * (X * A) <= P * A.
Proof. intros. assert (X * D <= P) by nia. nia. Qed.

Lemma lt_scale3 (D Y M P A : Z) :
  0 < D -> 0 < A -> M + 1 <= Y -> P < (M + 1) * D -> P * A < D * (Y * A).
Proof. intros. assert (P < Y * D) by nia. nia. Qed.

Lemma log2_pow2_bounds (q k : Z) : 0 <= k -> 2 ^ k <= q < 2 ^ (k + 1) -> Z.log2 q = k.
Proof. intros Hk H. apply Z.log2_unique; auto. Qed.

(** The exponent chosen by the format is the one [rnd] uses. *)
Lemma exp_agree (P D M e : Z) :
  0 <= P -> 0 < D -> M = P / D ->
  e <= fexp32 (Zdigits2 M + e) ->
  fexp32 (Zdigits2 M + e) - emin32
    = Z.max 0 (Z.log2 (scaleP P e / scaleD D e) - 23).
Proof.
  intros HP HD HM Hn.
  assert (HM0 : 0 <= M) by (subst M; apply Z.div_pos; lia).
  pose proof (floor_bounds P D HD) as [F1 F2]. rewrite <- HM in F1, F2.
  unfold scaleP, scaleD, fexp32 in *.
  destruct (Z.eq_dec M 0) as [M0|M0].
  - rewrite M0 in *. simpl Zdigits2 in *.
    assert (e <= emin32) by lia.
    replace (Z.max 0 (e - emin32)) with 0 by lia.
    replace (Z.max 0 (emin32 - e)) with (emin32 - e) by lia.
    change (2 ^ 0) with 1. rewrite Z.mul_1_r.
    pose proof (pow2_pos (emin32 - e) ltac:(lia)).
    rewrite Z.div_small by nia. simpl Z.log2. lia.
  - pose proof (Zdigits2_bounds M ltac:(lia)) as [B1 B2].
    pose proof (Zdigits2_nonneg M) as Hd.
    set (d := Zdigits2 M) in *.
    assert (Hd1 : 1 <= d).
    { destruct (Z_lt_le_dec d 1); [|lia]. exfalso.
      assert (d = 0) by lia. rewrite H in B2. simpl in B2. lia. }
    destruct (Z_le_gt_dec emin32 e) as [Hc|Hc].
    + replace (Z.max 0 (e - emin32)) with (e - emin32) by lia.
      replace (Z.max 0 (emin32 - e)) with 0 by lia.
      change (2 ^ 0) with 1. rewrite Z.mul_1_r.
      remember (e - emin32) as a eqn:Ea.
      pose proof (pow2_pos a ltac:(lia)) as Ha.
      assert (L : Z.log2 (P * 2 ^ a / D) = d - 1 + a).
      { apply log2_pow2_bounds; [lia|]. split.
        - apply Z.div_le_lower_bound; [lia|].
          rewrite pow2_split by lia. apply le_scale3 with M; lia.
        - apply Z.div_lt_upper_bound; [lia|].
          replace (d - 1 + a + 1) with (d + a) by lia.
          rewrite pow2_split by lia. apply lt_scale3 with M; lia. }
      rewrite L. lia.
    + replace (Z.max 0 (e - emin32)) with 0 by lia.
      replace (Z.max 0 (emin32 - e)) with (emin32 - e) by lia.
      change (2 ^ 0) with 1. rewrite Z.mul_1_r.
      remember (emin32 - e) as b eqn:Eb.
      pose proof (pow2_pos b ltac:(lia)) as Hb.
      rewrite <- Z.div_div by lia. rewrite <- HM.
      destruct (Z_le_gt_dec b (d - 1)) as [Hbd|Hbd].
      * assert (L : Z.log2 (M / 2 ^ b) = d - 1 - b).
        { apply log2_pow2_bounds; [lia|]. split.
          - apply Z.div_le_lower_bound; [lia|].
            rewrite Z.mul_comm, <- pow2_split by lia.
            replace (d - 1 - b + b) with (d - 1) by lia. lia.
          - apply Z.div_lt_upper_bound; [lia|].
            rewrite <- pow2_split by lia.
            replace (b + (d - 1 - b + 1)) with d by lia. lia. }
        rewrite L. lia.
      * assert (2 ^ d <= 2 ^ b) by (apply pow2_le; lia).
        rewrite Z.div_small by lia. simpl Z.log2. lia.
Qed.

Lemma Zdigits2_le (m k : Z) : 0 <= k -> 0 <= m < 2 ^ k -> Zdigits2 m <= k.
Proof.
  intros Hk [H0 H1]. destruct (Z.eq_dec m 0) as [->|Hm]; [simpl; lia|].
  pose proof (Zdigits2_bounds m ltac:(lia)) as [B1 B2].
  pose proof (Zdigits2_nonneg m).
  destruct (Z.eq_dec (Zdigits2 m) 0) as [Z0|Z0]; [lia|].
  assert (Zdigits2 m - 1 < k) by (apply pow2_lt_inv; lia). lia.
Qed.

Lemma Zdigits2_ge (m k : Z) : 0 < k -> 2 ^ (k - 1) <= m -> k <= Zdigits2 m.
Proof.
  intros Hk H. pose proof (pow2_pos (k - 1) ltac:(lia)).
  pose proof (Zdigits2_bounds m ltac:(lia)) as [B1 B2].
  pose proof (Zdigits2_nonneg m).
  assert (k - 1 < Zdigits2 m) by (apply pow2_lt_inv; lia). lia.
Qed.

Lemma shr_fexp_small (m E : Z) :
  0 <= m < 2 ^ 24 -> emin32 <= E ->
  shr_fexp prec emax m E loc_Exact = (Build_shr_record m false false, E).
Proof.
  intros Hm HE. unfold shr_fexp. rewrite fexp32_eq. unfold fexp32.
  pose proof (Zdigits2_le m 24 ltac:(lia) Hm).
  unfold shr. simpl shr_record_of_loc.
  destruct (Z.max (Zdigits2 m + E - 24) emin32 - E) eqn:En; try reflexivity. lia.
Qed.

Lemma shr_fexp_carry (E : Z) :
  emin32 <= E ->
  shr_fexp prec emax (2 ^ 24) E loc_Exact = (Build_shr_record (2 ^ 23) false false, E + 1).
Proof.
  intros HE. unfold shr_fexp. rewrite fexp32_eq. unfold fexp32.
  change (Zdigits2 (2 ^ 24)) with 25.
  replace (Z.max (25 + E - 24) emin32 - E) with 1 by lia.
  reflexivity.
Qed.

Lemma shifted_bounds (M e : Z) :
  0 <= M -> e <= fexp32 (Zdigits2 M + e) ->
  let E := fexp32 (Zdigits2 M + e) in
  0 <= M / 2 ^ (E - e) < 2 ^ 24 /\ (emin32 < E -> 2 ^ 23 <= M / 2 ^ (E - e)).
Proof.
  intros HM Hn E.
  pose proof (pow2_pos (E - e) ltac:(lia)) as Hp.
  destruct (Z.eq_dec M 0) as [->|M0].
  - rewrite Z.div_0_l by lia. split; [split; [lia|apply pow2_pos; lia]|].
    subst E. unfold fexp32 in *. simpl Zdigits2 in *. lia.
  - pose proof (Zdigits2_bounds M ltac:(lia)) as [B1 B2].
    pose proof (Zdigits2_nonneg M) as Hd.
    assert (HE : E = Z.max (Zdigits2 M + e - 24) emin32) by reflexivity.
    split; [split|].
    + apply Z.div_pos; lia.
    + apply Z.div_lt_upper_bound; [lia|].
      rewrite <- pow2_split by lia.
      assert (2 ^ Zdigits2 M <= 2 ^ (E - e + 24)) by (apply pow2_le; lia). lia.
    + intros HE'. apply Z.div_le_lower_bound; [lia|].
      rewrite <- pow2_split by lia.
      replace (E - e + 23) with (Zdigits2 M - 1) by lia. exact B1.
Qed.

Lemma valid_finite_iff (s : bool) (m : positive) (e : Z) :
  valid (S754_finite s m e) = true <->
  fexp32 (Zpos (digits2_pos m) + e) = e /\ e <= 104.
Proof.
  unfold valid, valid_binary, bounded, canonical_mantissa. rewrite fexp32_eq.
  rewrite andb_true_iff, Z.eqb_eq, Z.leb_le. reflexivity.
Qed.

Lemma pack_spec (s : bool) (m2 E : Z) :
  emin32 <= E -> 0 <= m2 <= 2 ^ 24 -> (emin32 < E -> 2 ^ 23 <= m2) ->
  rounds_to
    (let '(mrs, e') := shr_fexp prec emax m2 E loc_Exact in
     match shr_m mrs with
     | Z0 => S754_zero s
     | Zpos m => if e' <=? emax - prec then S754_finite s m e' else S754_infinity s
     | Zneg _ => S754_nan
     end) s (m2 * 2 ^ (E - emin32)).
Proof.
  intros HE Hm Hn.
  pose proof (pow2_pos (E - emin32) ltac:(lia)) as Hp.
  change (emax - prec) with 104.
  destruct (Z.eq_dec m2 (2 ^ 24)) as [C|C].
  - rewrite C, shr_fexp_carry by lia. cbn [shr_m].
    change (2 ^ 23) with (Zpos 8388608).
    assert (V : forall e, emin32 < e -> e <= 104 -> valid (S754_finite s 8388608 e) = true).
    { intros e0 H1 H2. apply valid_finite_iff. split; [|lia].
      change (Zpos (digits2_pos 8388608)) with 24. unfold fexp32. lia. }
    assert (Z : 2 ^ 24 * 2 ^ (E - emin32) = Zpos 8388608 * 2 ^ (E + 1 - emin32)).
    { replace (E + 1 - emin32) with (1 + (E - emin32)) by lia.
      rewrite pow2_split by lia. change (2 ^ 1) with 2. lia. }
    destruct (Z.leb_spec (E + 1) 104) as [L|L].
    + split; [apply V; lia|]. right. left. split.
      * split; [lia|]. rewrite Z.
        assert (2 ^ (E + 1 - emin32) <= 2 ^ 253) by (apply pow2_le; unfold emin32 in *; lia).
        change (2 ^ 277) with (2 ^ 24 * 2 ^ 253). lia.
      * exists 8388608%positive, (E + 1). split; [reflexivity|]. symmetry. exact Z.
    + split; [reflexivity|]. right. right. split; [|reflexivity].
      rewrite Z.
      assert (2 ^ 254 <= 2 ^ (E + 1 - emin32)) by (apply pow2_le; unfold emin32 in *; lia).
      change (2 ^ 277) with (8388608 * 2 ^ 254). lia.
  - rewrite shr_fexp_small by lia. cbn [shr_m].
    destruct m2 as [|m|m]; try lia.
    + split; [reflexivity|]. left. split; [lia|reflexivity].
    + assert (Hd : Zpos (digits2_pos m) <= 24).
      { apply (Zdigits2_le (Zpos m) 24); lia. }
      assert (Hd' : emin32 < E -> Zpos (digits2_pos m) = 24).
      { intros H. pose proof (Zdigits2_ge (Zpos m) 24 ltac:(lia) (Hn H)).
        simpl Zdigits2 in H0. lia. }
      assert (V : E <= 104 -> valid (S754_finite s m E) = true).
      { intros H. apply valid_finite_iff. split; [|lia]. unfold fexp32.
        destruct (Z.eq_dec E emin32); [lia|]. rewrite Hd' by lia. lia. }
      destruct (Z.leb_spec E 104) as [L|L].
      * split; [apply V; lia|]. right. left. split.
        -- split; [lia|].
           assert (2 ^ (E - emin32) <= 2 ^ 253) by (apply pow2_le; unfold emin32 in *; lia).
           change (2 ^ 277) with (2 ^ 24 * 2 ^ 253). nia.
        -- exists m, E. split; reflexivity.
      * split; [reflexivity|]. right. right. split; [|reflexivity].
        assert (2 ^ 254 <= 2 ^ (E - emin32)) by (apply pow2_le; unfold emin32 in *; lia).
        assert (2 ^ 23 <= Zpos m) by (apply Hn; unfold emin32 in *; lia).
        change (2 ^ 277) with (2 ^ 23 * 2 ^ 254). nia.
Qed.

(** [binary_round_aux], called on the quotient [P / D] in units of 2^e with
    its floor [M] and the position [l] of the remainder, returns the number
    [rnd] specifies (or the infinity beyond the largest finite number). *)
Lemma bra_spec (s : bool) (M e : Z) (l : location) (P D : Z) :
  0 <= P -> 0 < D -> M = P / D -> l = locate (P mod D) D ->
  e <= fexp32 (Zdigits2 M + e) ->
  rounds_to (binary_round_aux prec emax s M e l) s (rnd (scaleP P e) (scaleD D e)).
Proof.
  intros HP HD HM Hl Hn.
  destruct (shr_fexp_spec M e l P D HP HD HM Hl Hn) as (st1 & Hs1 & [Im Il]).
  assert (HM0 : 0 <= M) by (subst M; apply Z.div_pos; lia).
  pose proof (shifted_bounds M e HM0 Hn) as B. cbv zeta in B.
  pose proof (exp_agree P D M e HP HD HM Hn) as En.
  set (E := fexp32 (Zdigits2 M + e)) in *.
  assert (HE : emin32 <= E) by (subst E; unfold fexp32; lia).
  destruct (unit_scale P D e E HP HD Hn HE) as [U1 U2].
  unfold rnd. rewrite <- En, <- U1, <- U2, <- Im, <- Il.
  unfold binary_round_aux. rewrite Hs1.
  assert (Hm1 : shr_m st1 = M / 2 ^ (E - e)).
  { rewrite Im, HM. symmetry. apply Z.div_div; [lia|]. apply pow2_pos; lia. }
  rewrite <- Hm1 in B. destruct B as [B1 B2].
  pose proof (rne_bounds (shr_m st1) (loc_of_shr_record st1)) as R.
  apply pack_spec; lia.
Qed.

(** ** The rounding function and the order of binary32 numbers *)

Lemma rnd_shape (P D : Z) :
  0 <= P -> 0 < D ->
  forall n m, n = Z.max 0 (Z.log2 (P / D) - 23) -> m = P / (D * 2 ^ n) ->
  0 <= n /\ m * (D * 2 ^ n) <= P < (m + 1) * (D * 2 ^ n) /\
  0 <= m < 2 ^ 24 /\ (0 < n -> 2 ^ 23 <= m).
Proof.
  intros HP HD n m Dn Dm.
  assert (Hn : 0 <= n) by (subst n; lia).
  pose proof (pow2_pos n Hn) as Hp.
  assert (Hq : 0 <= P / D) by (apply Z.div_pos; lia).
  assert (Em : m = P / D / 2 ^ n) by (rewrite Dm; symmetry; apply Z.div_div; lia).
  split; [exact Hn|]. split; [rewrite Dm; apply floor_bounds; lia|].
  destruct (Z.eq_dec (P / D) 0) as [Q0|Q0].
  - rewrite Q0 in *. assert (n = 0) by (rewrite Dn; simpl; lia).
    rewrite Em. rewrite Z.div_0_l by lia. split; [split; [lia|apply pow2_pos; lia]|lia].
  - pose proof (Z.log2_spec (P / D) ltac:(lia)) as [L1 L2].
    pose proof (Z.log2_nonneg (P / D)) as L0.
    remember (Z.log2 (P / D)) as k eqn:Ek.
    rewrite Em. split; [split|].
    + apply Z.div_pos; lia.
    + apply Z.div_lt_upper_bound; [lia|]. rewrite <- pow2_split by lia.
      assert (2 ^ Z.succ k <= 2 ^ (n + 24)) by (apply pow2_le; lia). lia.
    + intros Hn0. apply Z.div_le_lower_bound; [lia|]. rewrite <- pow2_split by lia.
      replace (n + 23) with k by lia. exact L1.
Qed.

Lemma rnd_scale (P D c : Z) : 0 < D -> 0 < c -> rnd (P * c) (D * c) = rnd P D.
Proof.
  intros HD Hc. unfold rnd. rewrite div_scale by lia.
  set (n := Z.max 0 (Z.log2 (P / D) - 23)).
  assert (Hn : 0 <= n) by (subst n; lia).
  pose proof (pow2_pos n Hn).
  replace (D * c * 2 ^ n) with (D * 2 ^ n * c) by lia.
  rewrite div_scale, mod_scale, locate_scale by lia. reflexivity.
Qed.

(** [rnd] depends on the value of the quotient only. *)
Lemma rnd_ratio (P D P2 D2 : Z) :
  0 < D -> 0 < D2 -> P * D2 = P2 * D -> rnd P D = rnd P2 D2.
Proof.
  intros HD HD2 H.
  rewrite <- (rnd_scale P D D2), <- (rnd_scale P2 D2 D) by lia.
  rewrite H. f_equal. lia.
Qed.

Lemma rnd_0 (D : Z) : 0 < D -> rnd 0 D = 0.
Proof.
  intros HD. unfold rnd. rewrite (Z.div_0_l D) by lia.
  change (Z.max 0 (Z.log2 0 - 23)) with 0. change (2 ^ 0) with 1.
  rewrite Z.mul_1_r, Z.div_0_l, Z.mod_0_l by lia. reflexivity.
Qed.

Lemma rnd_nonneg (P D : Z) : 0 <= P -> 0 < D -> 0 <= rnd P D.
Proof.
  intros HP HD. destruct (rnd_shape P D HP HD _ _ eq_refl eq_refl) as (Hn & _ & Hm & _).
  unfold rnd.
  remember (Z.max 0 (Z.log2 (P / D) - 23)) as n eqn:En.
  pose proof (rne_bounds (P / (D * 2 ^ n)) (locate (P mod (D * 2 ^ n)) (D * 2 ^ n))).
  pose proof (pow2_pos n Hn). nia.
Qed.

Lemma rne_locate_mono (m r r' d : Z) :
  0 <= r <= r' ->
  round_nearest_even m (locate r d) <= round_nearest_even m (locate r' d).
Proof.
  intros H. unfold locate.
  destruct (Z.eqb_spec r 0) as [R0|R0]; destruct (Z.eqb_spec r' 0) as [R0'|R0']; try lia.
  - apply rne_bounds.
  - destruct (Z.compare_spec (2 * r) d), (Z.compare_spec (2 * r') d);
      simpl; try lia; destruct (Z.even m); lia.
Qed.

(** Rounding is monotone. *)
Lemma rnd_mono (P P' D : Z) :
  0 <= P <= P' -> 0 < D -> rnd P D <= rnd P' D.
Proof.
  intros [HP HPP] HD.
  destruct (rnd_shape P D HP HD _ _ eq_refl eq_refl) as (Hn & F & Hm & Hm').
  destruct (rnd_shape P' D ltac:(lia) HD _ _ eq_refl eq_refl) as (Hn' & F' & Hm2 & Hm2').
  unfold rnd.
  assert (Hq : P / D <= P' / D) by (apply Z.div_le_mono; lia).
  assert (Hq0 : 0 <= P / D) by (apply Z.div_pos; lia).
  pose proof (Z.log2_le_mono _ _ Hq) as Hl.
  remember (Z.max 0 (Z.log2 (P / D) - 23)) as n eqn:En0.
  remember (Z.max 0 (Z.log2 (P' / D) - 23)) as n' eqn:En0'.
  assert (Hnn : n <= n') by lia.
  pose proof (pow2_pos n Hn) as Hp. pose proof (pow2_pos n' Hn') as Hp'.
  remember (P / (D * 2 ^ n)) as m eqn:Em0. remember (P' / (D * 2 ^ n')) as m' eqn:Em0'.
  pose proof (rne_bounds m (locate (P mod (D * 2 ^ n)) (D * 2 ^ n))) as R.
  pose proof (rne_bounds m' (locate (P' mod (D * 2 ^ n')) (D * 2 ^ n'))) as R'.
  destruct (Z.eq_dec n n') as [En|En].
  - symmetry in En. rewrite En in *. apply Z.mul_le_mono_nonneg_r; [lia|].
    assert (Hmm : m <= m') by (rewrite Em0, Em0'; apply Z.div_le_mono; lia).
    destruct (Z.eq_dec m m') as [Em|Em]; [|lia].
    rewrite <- Em.
    apply rne_locate_mono.
    pose proof (Z.mod_pos_bound P (D * 2 ^ n) ltac:(lia)).
    rewrite (Z.mod_eq P), (Z.mod_eq P') by lia. rewrite <- Em0, <- Em0', <- Em. lia.
  - assert (H1 : 2 ^ (n + 1) <= 2 ^ n') by (apply pow2_le; lia).
    rewrite pow2_split in H1 by lia. change (2 ^ 1) with 2 in H1.
    specialize (Hm2' ltac:(lia)).
    apply Z.le_trans with (2 ^ 24 * 2 ^ n); [nia|].
    apply Z.le_trans with (2 ^ 23 * 2 ^ n'); [|nia].
    change (2 ^ 24) with (2 ^ 23 * 2). nia.
Qed.

Lemma valid_bounds (s : bool) (m : positive) (e : Z) :
  valid (S754_finite s m e) = true ->
  emin32 <= e <= 104 /\ Zpos m < 2 ^ 24 /\ (emin32 < e -> 2 ^ 23 <= Zpos m).
Proof.
  intros V. apply valid_finite_iff in V. destruct V as [C L].
  unfold fexp32 in C. pose proof (digits2_bounds m) as [B1 B2].
  assert (Hd : 0 < Zpos (digits2_pos m)) by lia.
  split; [lia|]. split.
  - assert (2 ^ Zpos (digits2_pos m) <= 2 ^ 24) by (apply pow2_le; lia). lia.
  - intros H. replace 23 with (Zpos (digits2_pos m) - 1) by lia. exact B1.
Qed.

(** Numbers of the format are not changed by rounding. *)
Lemma rnd_exact (m k : Z) :
  0 <= k -> 0 <= m < 2 ^ 24 -> (0 < k -> 2 ^ 23 <= m) -> rnd (m * 2 ^ k) 1 = m * 2 ^ k.
Proof.
  intros Hk Hm Hn. pose proof (pow2_pos k Hk) as Hp.
  destruct (Z.eq_dec m 0) as [->|M0]; [rewrite Z.mul_0_l; apply rnd_0; lia|].
  unfold rnd. rewrite Z.div_1_r.
  assert (En : Z.max 0 (Z.log2 (m * 2 ^ k) - 23) = k).
  { destruct (Z.eq_dec k 0) as [->|K0].
    - change (2 ^ 0) with 1. rewrite Z.mul_1_r.
      assert (Z.log2 m < 24) by (apply Z.log2_lt_pow2; lia). lia.
    - specialize (Hn ltac:(lia)).
      rewrite (log2_pow2_bounds (m * 2 ^ k) (23 + k)); [lia|lia|].
      replace (23 + k + 1) with (24 + k) by lia.
      rewrite !pow2_split by lia. nia. }
  rewrite En, Z.mul_1_l, Z.div_mul, Z.mod_mul by lia. unfold locate. simpl. reflexivity.
Qed.

Lemma mag_pos (m : positive) (e : Z) : emin32 <= e -> 0 < mag m e.
Proof. intros. unfold mag. pose proof (pow2_pos (e - emin32) ltac:(lia)). nia. Qed.

Lemma mag_compare (s1 s2 : bool) (m1 m2 : positive) (e1 e2 : Z) :
  valid (S754_finite s1 m1 e1) = true -> valid (S754_finite s2 m2 e2) = true ->
  (mag m1 e1 ?= mag m2 e2)
    = match e1 ?= e2 with Lt => Lt | Gt => Gt | Eq => Pos.compare_cont Eq m1 m2 end.
Proof.
  intros V1 V2.
  destruct (valid_bounds _ _ _ V1) as (E1 & M1 & N1).
  destruct (valid_bounds _ _ _ V2) as (E2 & M2 & N2).
  unfold mag.
  assert (Key : forall ma mb ea eb, emin32 <= ea < eb -> 0 < ma < 2 ^ 24 -> 2 ^ 23 <= mb ->
                ma * 2 ^ (ea - emin32) < mb * 2 ^ (eb - emin32)).
  { intros ma mb ea eb He Ha Hb.
    pose proof (pow2_pos (ea - emin32) ltac:(lia)).
    assert (2 ^ (ea - emin32 + 1) <= 2 ^ (eb - emin32)) by (apply pow2_le; lia).
    rewrite pow2_split in H0 by lia. change (2 ^ 1) with 2 in H0.
    apply Z.lt_le_trans with (2 ^ 24 * 2 ^ (ea - emin32)); [nia|].
    apply Z.le_trans with (2 ^ 23 * 2 ^ (eb - emin32)); [|nia].
    change (2 ^ 24) with (2 ^ 23 * 2). nia. }
  destruct (Z.compare_spec e1 e2) as [E|E|E].
  - subst e2. change (Pos.compare_cont Eq m1 m2) with (Zpos m1 ?= Zpos m2).
    pose proof (pow2_pos (e1 - emin32) ltac:(lia)).
    destruct (Z.compare_spec (Zpos m1) (Zpos m2)) as [C|C|C].
    + rewrite C. apply Z.compare_refl.
    + apply Z.compare_lt_iff. nia.
    + apply Z.compare_gt_iff. nia.
  - apply Z.compare_lt_iff. apply Key; try lia.
  - apply Z.compare_gt_iff. apply Key; try lia.
Qed.

Lemma ord_finite (s : bool) (m : positive) (e : Z) :
  ord (S754_finite s m e) = cond_Zopp s (mag m e).
Proof. reflexivity. Qed.

(** The comparison of two finite numbers is the comparison of their exact
    values. *)
Lemma compare_ord (x y : float) :
  valid x = true -> valid y = true -> is_finite x = true -> is_finite y = true ->
  SFcompare x y = Some (ord x ?= ord y).
Proof.
  intros Vx Vy Fx Fy.
  destruct x as [sx|sx| |sx mx ex]; try discriminate;
  destruct y as [sy|sy| |sy my ey]; try discriminate.
  - reflexivity.
  - destruct (valid_bounds _ _ _ Vy) as (E & _).
    pose proof (mag_pos my ey ltac:(lia)). rewrite ord_finite.
    change (ord (S754_zero sx)) with 0. unfold SFcompare.
    f_equal. destruct sy; unfold cond_Zopp; symmetry.
    + apply Z.compare_gt_iff. lia.
    + apply Z.compare_lt_iff. lia.
  - destruct (valid_bounds _ _ _ Vx) as (E & _).
    pose proof (mag_pos mx ex ltac:(lia)). rewrite ord_finite.
    change (ord (S754_zero sy)) with 0. unfold SFcompare.
    f_equal. destruct sx; unfold cond_Zopp; symmetry.
    + apply Z.compare_lt_iff. lia.
    + apply Z.compare_gt_iff. lia.
  - destruct (valid_bounds _ _ _ Vx) as (Ex & _).
    destruct (valid_bounds _ _ _ Vy) as (Ey & _).
    pose proof (mag_pos mx ex ltac:(lia)). pose proof (mag_pos my ey ltac:(lia)).
    rewrite !ord_finite. unfold SFcompare. f_equal.
    destruct sx, sy; unfold cond_Zopp.
    + rewrite Z.compare_opp, (mag_compare true true my mx ey ex Vy Vx).
      rewrite (Z.compare_antisym ey ex), (Pos.compare_cont_antisym mx my Eq).
      destruct (ey ?= ex); reflexivity.
    + symmetry. apply Z.compare_lt_iff. lia.
    + symmetry. apply Z.compare_gt_iff. lia.
    + rewrite (mag_compare false false mx my ex ey Vx Vy). reflexivity.
Qed.

Lemma ltb_ord (x y : float) :
  valid x = true -> valid y = true -> is_finite x = true -> is_finite y = true ->
  (x <! y) = (ord x <? ord y).
Proof.
  intros. unfold ltb, SFltb. rewrite compare_ord by assumption.
  unfold Z.ltb. destruct (ord x ?= ord y); reflexivity.
Qed.

Lemma leb_ord (x y : float) :
  valid x = true -> valid y = true -> is_finite x = true -> is_finite y = true ->
  leb x y = (ord x <=? ord y).
Proof.
  intros. unfold leb, SFleb. rewrite compare_ord by assumption.
  unfold Z.leb. destruct (ord x ?= ord y); reflexivity.
Qed.

(** A finite number is determined by its exact value and its sign bit. *)
Lemma float_eq (x y : float) :
  valid x = true -> valid y = true -> is_finite x = true -> is_finite y = true ->
  ord x = ord y -> signbit x = signbit y -> x = y.
Proof.
  intros Vx Vy Fx Fy Ho Hs.
  destruct x as [sx|sx| |sx mx ex]; try discriminate;
  destruct y as [sy|sy| |sy my ey]; try discriminate; simpl in Hs; subst sy.
  - reflexivity.
  - destruct (valid_bounds _ _ _ Vy) as (E & _).
    pose proof (mag_pos my ey ltac:(lia)). rewrite ord_finite in Ho. simpl ord in Ho.
    destruct sx; simpl in Ho; lia.
  - destruct (valid_bounds _ _ _ Vx) as (E & _).
    pose proof (mag_pos mx ex ltac:(lia)). rewrite ord_finite in Ho. simpl ord in Ho.
    destruct sx; simpl in Ho; lia.
  - rewrite !ord_finite in Ho.
    assert (Hm : mag mx ex = mag my ey) by (destruct sx; simpl in Ho; lia).
    pose proof (mag_compare sx sx mx my ex ey Vx Vy) as C.
    rewrite Hm, Z.compare_refl in C.
    destruct (Z.compare_spec ex ey) as [E|E|E]; try discriminate.
    symmetry in C. apply Pos.compare_eq in C. subst. reflexivity.
Qed.

(** ** The arithmetic operations round the exact result *)

Lemma iter_xO (m d : positive) : Zpos (Pos.iter xO m d) = Zpos m * 2 ^ Zpos d.
Proof.
  induction d as [|d IH] using Pos.peano_ind.
  - simpl. lia.
  - rewrite Pos.iter_succ, Pos2Z.inj_succ, Z.pow_succ_r by lia.
    rewrite (Pos2Z.inj_xO (Pos.iter xO m d)), IH. lia.
Qed.

Lemma shl_align_spec (mx : positive) (ex ex' : Z) :
  snd (shl_align mx ex ex') = Z.min ex ex' /\
  Zpos (fst (shl_align mx ex ex')) = Zpos mx * 2 ^ (ex - Z.min ex ex').
Proof.
  unfold shl_align. destruct (ex' - ex) as [|d|d] eqn:E; simpl fst; simpl snd.
  - replace (Z.min ex ex') with ex by lia. rewrite Z.sub_diag. simpl. lia.
  - replace (Z.min ex ex') with ex by lia. rewrite Z.sub_diag. simpl. lia.
  - replace (Z.min ex ex') with ex' by lia. rewrite iter_xO.
    replace (ex - ex') with (Zpos d) by lia. split; reflexivity.
Qed.

Lemma Zdigits2_shift (m : positive) (k : Z) :
  0 <= k -> Zdigits2 (Zpos m * 2 ^ k) = Zpos (digits2_pos m) + k.
Proof.
  intros Hk. pose proof (digits2_bounds m) as [B1 B2].
  pose proof (pow2_pos k Hk).
  apply Zdigits2_unique; [lia|].
  replace (Zpos (digits2_pos m) + k - 1) with (Zpos (digits2_pos m) - 1 + k) by lia.
  rewrite !pow2_split by lia. nia.
Qed.

(** [binary_round] rounds the exact value [m * 2^e]. *)
Lemma binary_round_spec (s : bool) (mx : positive) (ex : Z) :
  emin32 <= ex ->
  rounds_to (binary_round prec emax s mx ex) s (rnd (mag mx ex) 1).
Proof.
  intros He. unfold binary_round. rewrite fexp32_eq.
  set (E0 := fexp32 (Zpos (digits2_pos mx) + ex)).
  assert (HE0 : emin32 <= E0) by (subst E0; unfold fexp32; lia).
  destruct (shl_align_spec mx ex E0) as [S1 S2].
  destruct (shl_align mx ex E0) as [mz ez]. simpl fst in S2. simpl snd in S1.
  assert (Hez : emin32 <= ez <= ex) by lia.
  pose proof (bra_spec s (Zpos mz) ez loc_Exact (Zpos mz) 1) as B.
  rewrite Z.div_1_r, Z.mod_1_r in B.
  replace (rnd (mag mx ex) 1) with (rnd (scaleP (Zpos mz) ez) (scaleD 1 ez)).
  - apply B; try lia; try reflexivity.
    rewrite S2, <- S1, Zdigits2_shift by lia.
    replace (Zpos (digits2_pos mx) + (ex - ez) + ez) with (Zpos (digits2_pos mx) + ex) by lia.
    fold E0. lia.
  - unfold scaleP, scaleD, mag.
    replace (Z.max 0 (emin32 - ez)) with 0 by lia.
    replace (Z.max 0 (ez - emin32)) with (ez - emin32) by lia.
    rewrite S2, <- S1. change (1 * 2 ^ 0) with 1. f_equal.
    rewrite <- Z.mul_assoc, <- pow2_split by lia. do 2 f_equal. lia.
Qed.

Lemma binary_normalize_spec (M e : Z) (szero : bool) :
  emin32 <= e ->
  srounds_to (binary_normalize prec emax M e szero) szero (M * 2 ^ (e - emin32)).
Proof.
  intros He. pose proof (pow2_pos (e - emin32) ltac:(lia)) as Hp.
  unfold srounds_to, binary_normalize. destruct M as [|m|m].
  - reflexivity.
  - replace (Zpos m * 2 ^ (e - emin32) ?= 0) with Gt by (symmetry; apply Z.compare_gt_iff; nia).
    apply binary_round_spec; lia.
  - replace (Zneg m * 2 ^ (e - emin32) ?= 0) with Lt by (symmetry; apply Z.compare_lt_iff; nia).
    replace (- (Zneg m * 2 ^ (e - emin32))) with (mag m e) by (unfold mag; lia).
    apply binary_round_spec; lia.
Qed.

Lemma rounds_to_valid (R : float) (s : bool) (z : Z) : rounds_to R s z -> valid R = true.
Proof. intros [V _]. exact V. Qed.

Lemma rounds_to_finite (R : float) (s : bool) (z : Z) :
  rounds_to R s z -> z < 2 ^ 277 ->
  is_finite R = true /\ ord R = cond_Zopp s z /\ (0 < z -> exists m e, R = S754_finite s m e).
Proof.
  intros [_ [[Z0 ->]|[[Hz (m & e & -> & Hm)]|[Hz _]]]] Hlt; try lia.
  - subst z. split; [reflexivity|]. split; [destruct s; reflexivity|lia].
  - split; [reflexivity|]. split; [rewrite ord_finite; unfold mag; rewrite Hm; reflexivity|].
    intros _. eauto.
Qed.

Lemma rounds_to_neg (R : float) (z : Z) :
  rounds_to R true z -> 0 < z -> (R <! S754_zero false) = true.
Proof.
  intros [_ [[Z0 _]|[[Hz (m & e & -> & Hm)]|[Hz ->]]]] Hlt; try lia; reflexivity.
Qed.

Lemma srnd_nonneg_eq (N : Z) : 0 <= N -> srnd N = rnd N 1.
Proof.
  intros H. unfold srnd. destruct (Z.eq_dec N 0) as [->|N0].
  - rewrite rnd_0 by lia. reflexivity.
  - assert (0 < N) by lia.
    rewrite Z.sgn_pos by assumption. rewrite Z.abs_eq by assumption. apply Z.mul_1_l.
Qed.

Lemma srnd_opp (N : Z) : srnd (- N) = - srnd N.
Proof. unfold srnd. rewrite Z.sgn_opp, Z.abs_opp. apply Z.mul_opp_l. Qed.

Lemma srnd_neg_eq (N : Z) : N <= 0 -> srnd N = - rnd (- N) 1.
Proof.
  intros H. replace N with (- - N) at 1 by lia.
  rewrite srnd_opp. rewrite srnd_nonneg_eq by lia. reflexivity.
Qed.

Lemma srnd_mono (N N' : Z) : N <= N' -> srnd N <= srnd N'.
Proof.
  intros H.
  destruct (Z_le_gt_dec 0 N) as [P|P]; destruct (Z_le_gt_dec 0 N') as [P'|P']; try lia.
  - rewrite !srnd_nonneg_eq by lia. apply rnd_mono; lia.
  - rewrite (srnd_nonneg_eq N') by lia. rewrite (srnd_neg_eq N) by lia.
    pose proof (rnd_nonneg (- N) 1 ltac:(lia) ltac:(lia)).
    pose proof (rnd_nonneg N' 1 ltac:(lia) ltac:(lia)). lia.
  - rewrite (srnd_neg_eq N), (srnd_neg_eq N') by lia.
    pose proof (rnd_mono (- N') (- N) 1 ltac:(lia) ltac:(lia)). lia.
Qed.

Lemma mag_exact (s : bool) (m : positive) (e : Z) :
  valid (S754_finite s m e) = true -> rnd (mag m e) 1 = mag m e.
Proof.
  intros V. destruct (valid_bounds _ _ _ V) as (E & M & N).
  unfold mag. apply rnd_exact; lia.
Qed.

Lemma srnd_exact (x : float) : valid x = true -> srnd (ord x) = ord x.
Proof.
  intros V. destruct x as [s|s| |s m e]; try reflexivity.
  rewrite ord_finite. destruct (valid_bounds _ _ _ V) as (E & _).
  pose proof (mag_pos m e ltac:(lia)).
  destruct s; unfold cond_Zopp.
  - rewrite srnd_opp. rewrite srnd_nonneg_eq by lia. rewrite (mag_exact true) by auto. reflexivity.
  - rewrite srnd_nonneg_eq by lia. rewrite (mag_exact false) by auto. reflexivity.
Qed.

Lemma ord_bound (x : float) : valid x = true -> Z.abs (ord x) < 2 ^ 277.
Proof.
  intros V. destruct x as [s|s| |s m e]; try (simpl; lia).
  rewrite ord_finite. destruct (valid_bounds _ _ _ V) as (E & M & _).
  assert (2 ^ (e - emin32) <= 2 ^ 253) by (apply pow2_le; unfold emin32 in *; lia).
  pose proof (pow2_pos (e - emin32) ltac:(lia)).
  assert (mag m e < 2 ^ 277).
  { unfold mag. change (2 ^ 277) with (2 ^ 24 * 2 ^ 253). nia. }
  pose proof (mag_pos m e ltac:(lia)). destruct s; unfold cond_Zopp; lia.
Qed.

Lemma srounds_valid (R : float) (sz : bool) (N : Z) : srounds_to R sz N -> valid R = true.
Proof.
  unfold srounds_to. destruct (N ?= 0).
  - intros ->. reflexivity.
  - apply rounds_to_valid.
  - apply rounds_to_valid.
Qed.

Lemma srounds_finite (R : float) (sz : bool) (N : Z) :
  srounds_to R sz N -> rnd (Z.abs N) 1 < 2 ^ 277 ->
  is_finite R = true /\ ord R = srnd N.
Proof.
  unfold srounds_to. destruct (Z.compare_spec N 0) as [E|E|E]; intros H B.
  - subst. split; reflexivity.
  - rewrite Z.abs_neq in B by lia.
    destruct (rounds_to_finite _ _ _ H B) as (F & O & _). split; [exact F|].
    rewrite O. rewrite srnd_neg_eq by lia. reflexivity.
  - rewrite Z.abs_eq in B by lia.
    destruct (rounds_to_finite _ _ _ H B) as (F & O & _). split; [exact F|].
    rewrite O, srnd_nonneg_eq by lia. reflexivity.
Qed.

Lemma srounds_negative (R : float) (sz : bool) (N : Z) :
  srounds_to R sz N -> N < 0 -> (R <! S754_zero false) = true.
Proof.
  unfold srounds_to. intros H HN.
  replace (N ?= 0) with Lt in H by (symmetry; apply Z.compare_lt_iff; lia).
  apply (rounds_to_neg _ _ H).
  assert (1 <= - N) by lia.
  pose proof (rnd_mono 1 (- N) 1 ltac:(lia) ltac:(lia)).
  change (rnd 1 1) with 1 in H1. lia.
Qed.

Lemma aligned_ord (s : bool) (m : positive) (e e' : Z) :
  emin32 <= e -> emin32 <= e' ->
  cond_Zopp s (Zpos (fst (shl_align m e (Z.min e e')))) * 2 ^ (Z.min e e' - emin32)
    = ord (S754_finite s m e).
Proof.
  intros He He'. destruct (shl_align_spec m e (Z.min e e')) as [_ S].
  rewrite S, ord_finite. unfold mag.
  replace (Z.min e (Z.min e e')) with (Z.min e e') by lia.
  replace (e - emin32) with ((e - Z.min e e') + (Z.min e e' - emin32)) by lia.
  rewrite pow2_split by lia. destruct s; unfold cond_Zopp; lia.
Qed.

(** Addition rounds the exact sum. *)
Lemma add_finite_spec (sx sy : bool) (mx my : positive) (ex ey : Z) :
  valid (S754_finite sx mx ex) = true -> valid (S754_finite sy my ey) = true ->
  srounds_to (S754_finite sx mx ex +! S754_finite sy my ey) false
    (ord (S754_finite sx mx ex) + ord (S754_finite sy my ey)).
Proof.
  intros Vx Vy.
  destruct (valid_bounds _ _ _ Vx) as (Ex & _). destruct (valid_bounds _ _ _ Vy) as (Ey & _).
  unfold add, SFadd. cbv zeta.
  rewrite <- (aligned_ord sx mx ex ey) by lia.
  rewrite <- (aligned_ord sy my ey ex) by lia.
  rewrite (Z.min_comm ey ex), <- Z.mul_add_distr_r.
  apply binary_normalize_spec. lia.
Qed.

(** Subtraction rounds the exact difference. *)
Lemma sub_finite_spec (sx sy : bool) (mx my : positive) (ex ey : Z) :
  valid (S754_finite sx mx ex) = true -> valid (S754_finite sy my ey) = true ->
  srounds_to (S754_finite sx mx ex -! S754_finite sy my ey) false
    (ord (S754_finite sx mx ex) - ord (S754_finite sy my ey)).
Proof.
  intros Vx Vy.
  destruct (valid_bounds _ _ _ Vx) as (Ex & _). destruct (valid_bounds _ _ _ Vy) as (Ey & _).
  unfold sub, SFsub. cbv zeta.
  rewrite <- (aligned_ord sx mx ex ey) by lia.
  rewrite <- (aligned_ord sy my ey ex) by lia.
  rewrite (Z.min_comm ey ex), <- Z.mul_sub_distr_r.
  apply binary_normalize_spec. lia.
Qed.

Lemma valid_digits (s : bool) (m : positive) (e : Z) :
  valid (S754_finite s m e) = true ->
  emin32 <= e /\ Zpos (digits2_pos m) <= 24 /\ (Zpos (digits2_pos m) = 24 \/ e = emin32).
Proof.
  intros V. apply valid_finite_iff in V. destruct V as [C _].
  unfold fexp32 in C. lia.
Qed.

(** Multiplication rounds the exact product. *)
Lemma mul_finite_spec (sx sy : bool) (mx my : positive) (ex ey : Z) :
  valid (S754_finite sx mx ex) = true -> valid (S754_finite sy my ey) = true ->
  rounds_to (S754_finite sx mx ex *! S754_finite sy my ey) (xorb sx sy)
    (rnd (mag mx ex * mag my ey) (2 ^ 149)).
Proof.
  intros Vx Vy.
  destruct (valid_digits _ _ _ Vx) as (Ex & Dx & Cx).
  destruct (valid_digits _ _ _ Vy) as (Ey & Dy & Cy).
  pose proof (digits2_bounds mx) as [Bx _]. pose proof (digits2_bounds my) as [By _].
  unfold mul, SFmul.
  pose proof (bra_spec (xorb sx sy) (Zpos (mx * my)) (ex + ey) loc_Exact (Zpos (mx * my)) 1) as B.
  rewrite Z.div_1_r, Z.mod_1_r in B.
  replace (rnd (mag mx ex * mag my ey) (2 ^ 149))
    with (rnd (scaleP (Zpos (mx * my)) (ex + ey)) (scaleD 1 (ex + ey))).
  - apply B; try lia; try reflexivity.
    assert (Hd : Zpos (digits2_pos mx) + Zpos (digits2_pos my) - 1 <= Zdigits2 (Zpos (mx * my))).
    { apply Zdigits2_ge; [lia|].
      replace (Zpos (digits2_pos mx) + Zpos (digits2_pos my) - 1 - 1)
        with ((Zpos (digits2_pos mx) - 1) + (Zpos (digits2_pos my) - 1)) by lia.
      rewrite pow2_split by lia. rewrite Pos2Z.inj_mul.
      pose proof (pow2_pos (Zpos (digits2_pos mx) - 1) ltac:(lia)).
      pose proof (pow2_pos (Zpos (digits2_pos my) - 1) ltac:(lia)). nia. }
    unfold fexp32, emin32 in *. lia.
  - unfold scaleP, scaleD, mag. rewrite Pos2Z.inj_mul.
    pose proof (pow2_pos (Z.max 0 (emin32 - (ex + ey))) ltac:(lia)).
    apply rnd_ratio; [lia|apply pow2_pos; lia|].
    assert (K : 2 ^ Z.max 0 (ex + ey - emin32) * 2 ^ 149
                = 2 ^ (ex - emin32) * 2 ^ (ey - emin32) * 2 ^ Z.max 0 (emin32 - (ex + ey))).
    { rewrite <- !pow2_split by lia. f_equal. unfold emin32. lia. }
    transitivity (Zpos mx * Zpos my * (2 ^ Z.max 0 (ex + ey - emin32) * 2 ^ 149)); [ring|].
    rewrite K. ring.
Qed.

Lemma new_location_locate (d r : Z) : 0 < d -> new_location d r = locate r d.
Proof.
  intros Hd. unfold new_location, new_location_even, new_location_odd, locate.
  destruct (Z.even d) eqn:Ev; destruct (Z.eqb_spec r 0); try reflexivity.
  f_equal.
  assert (Z.odd d = true) by (rewrite <- Z.negb_even, Ev; reflexivity).
  apply Z.odd_spec in H. destruct H as [k Hk].
  destruct (Z.compare_spec (2 * r + 1) d) as [C|C|C];
    symmetry; [apply Z.compare_lt_iff|apply Z.compare_lt_iff|apply Z.compare_gt_iff]; lia.
Qed.

(** Division rounds the exact quotient. *)
Lemma div_finite_spec (sx sy : bool) (mx my : positive) (ex ey : Z) :
  valid (S754_finite sx mx ex) = true -> valid (S754_finite sy my ey) = true ->
  rounds_to (S754_finite sx mx ex /! S754_finite sy my ey) (xorb sx sy)
    (rnd (mag mx ex * 2 ^ 149) (mag my ey)).
Proof.
  intros Vx Vy.
  destruct (valid_digits _ _ _ Vx) as (Ex & Dx & Cx).
  destruct (valid_digits _ _ _ Vy) as (Ey & Dy & Cy).
  pose proof (digits2_bounds mx) as [Bx Bx']. pose proof (digits2_bounds my) as [By By'].
  unfold div, SFdiv, SFdiv_core_binary. rewrite fexp32_eq. cbv zeta.
  simpl Zdigits2.
  set (d1 := Zpos (digits2_pos mx)) in *. set (d2 := Zpos (digits2_pos my)) in *.
  remember (Z.min (fexp32 (d1 + ex - (d2 + ey))) (ex - ey)) as e' eqn:He'.
  remember (ex - ey - e') as sh eqn:Hsh.
  assert (Hs0 : 0 <= sh) by lia.
  set (m' := match sh with Z0 => Zpos mx | Zpos _ => Z.shiftl (Zpos mx) sh | Zneg _ => 0 end).
  assert (Hm' : m' = Zpos mx * 2 ^ sh).
  { subst m'. destruct sh as [|p|p]; try lia.
    apply Z.shiftl_mul_pow2. lia. }
  pose proof (pow2_pos sh Hs0) as Hps.
  assert (Hm0 : 0 < m') by nia.
  pose proof (Z_div_mod m' (Zpos my) ltac:(lia)) as DM.
  unfold Z.div, Z.modulo in *.
  assert (Hq : fst (Z.div_eucl m' (Zpos my)) = m' / Zpos my) by reflexivity.
  assert (Hr : snd (Z.div_eucl m' (Zpos my)) = m' mod Zpos my) by reflexivity.
  destruct (Z.div_eucl m' (Zpos my)) as [q r]. simpl in Hq, Hr. destruct DM as [DM1 DM2].
  pose proof (bra_spec (xorb sx sy) q e' (new_location (Zpos my) r) m' (Zpos my)) as B.
  replace (rnd (mag mx ex * 2 ^ 149) (mag my ey))
    with (rnd (scaleP m' e') (scaleD (Zpos my) e')).
  - apply B; try lia.
    + rewrite new_location_locate by lia. rewrite Hr. reflexivity.
    + unfold fexp32 in *.
      destruct (Z_le_gt_dec e' emin32) as [L|G]; [lia|].
      assert (Hsh' : d2 - d1 + 24 <= sh) by lia.
      assert (Hq23 : 2 ^ 23 <= q).
      { rewrite Hq. apply Z.div_le_lower_bound; [lia|].
        apply Z.le_trans with (2 ^ d2 * 2 ^ 23); [nia|].
        rewrite Hm'. rewrite <- pow2_split by lia.
        apply Z.le_trans with (2 ^ (d1 - 1) * 2 ^ sh); [|nia].
        rewrite <- pow2_split by lia. apply pow2_le. lia. }
      pose proof (Zdigits2_ge q 24 ltac:(lia) Hq23). lia.
  - unfold scaleP, scaleD, mag. rewrite Hm'.
    pose proof (pow2_pos (Z.max 0 (emin32 - e')) ltac:(lia)).
    pose proof (pow2_pos (ey - emin32) ltac:(lia)).
    apply rnd_ratio; [nia|nia|].
    assert (K : 2 ^ sh * 2 ^ Z.max 0 (e' - emin32) * 2 ^ (ey - emin32)
                = 2 ^ (ex - emin32) * 2 ^ 149 * 2 ^ Z.max 0 (emin32 - e')).
    { rewrite <- !pow2_split by lia. f_equal. unfold emin32. lia. }
    transitivity (Zpos mx * Zpos my * (2 ^ sh * 2 ^ Z.max 0 (e' - emin32) * 2 ^ (ey - emin32))); [ring|].
    rewrite K. ring.
Qed.

(** ** The operations on finite numbers, in terms of exact values *)

Lemma rnd_exact_gen (m k : Z) :
  0 <= k -> 0 <= m < 2 ^ 24 -> rnd (m * 2 ^ k) 1 = m * 2 ^ k.
Proof.
  intros Hk Hm. pose proof (pow2_pos k Hk) as Hp.
  destruct (Z.eq_dec m 0) as [->|M0]; [rewrite Z.mul_0_l; apply rnd_0; lia|].
  unfold rnd. rewrite Z.div_1_r, !Z.mul_1_l.
  remember (Z.max 0 (Z.log2 (m * 2 ^ k) - 23)) as n eqn:En.
  assert (Hn : 0 <= n <= k).
  { assert (Z.log2 (m * 2 ^ k) < 24 + k); [|lia].
    apply Z.log2_lt_pow2; [nia|]. rewrite pow2_split by lia. nia. }
  pose proof (pow2_pos n ltac:(lia)).
  replace (m * 2 ^ k) with (m * 2 ^ (k - n) * 2 ^ n)
    by (rewrite <- Z.mul_assoc, <- pow2_split by lia; do 2 f_equal; lia).
  rewrite Z.div_mul, Z.mod_mul by lia. reflexivity.
Qed.

Lemma fin_cases (x : float) :
  fin x -> (exists s, x = S754_zero s) \/
           (exists s m e, x = S754_finite s m e /\ valid x = true).
Proof.
  intros [V F]. destruct x as [s|s| |s m e]; try discriminate; eauto 6.
Qed.

Lemma ord_sign (s : bool) (m : positive) (e : Z) :
  valid (S754_finite s m e) = true ->
  (s = true -> ord (S754_finite s m e) < 0) /\ (s = false -> 0 < ord (S754_finite s m e)).
Proof.
  intros V. destruct (valid_bounds _ _ _ V) as (E & _).
  pose proof (mag_pos m e ltac:(lia)). rewrite ord_finite.
  split; intros ->; unfold cond_Zopp; lia.
Qed.

Lemma add_ord (x y : float) :
  fin x -> fin y -> rnd (Z.abs (ord x + ord y)) 1 < 2 ^ 277 ->
  fin (x +! y) /\ ord (x +! y) = srnd (ord x + ord y).
Proof.
  intros Fx Fy B.
  destruct (fin_cases x Fx) as [[sx ->]|(sx & mx & ex & -> & Vx)];
  destruct (fin_cases y Fy) as [[sy ->]|(sy & my & ey & -> & Vy)].
  - destruct sx, sy; split; try split; reflexivity.
  - change (S754_zero sx +! S754_finite sy my ey) with (S754_finite sy my ey).
    split; [exact Fy|]. change (ord (S754_zero sx)) with 0.
    rewrite Z.add_0_l. symmetry. apply srnd_exact. exact Vy.
  - change (S754_finite sx mx ex +! S754_zero sy) with (S754_finite sx mx ex).
    split; [exact Fx|]. change (ord (S754_zero sy)) with 0.
    rewrite Z.add_0_r. symmetry. apply srnd_exact. exact Vx.
  - pose proof (add_finite_spec sx sy mx my ex ey Vx Vy) as S.
    destruct (srounds_finite _ _ _ S B) as [F O].
    split; [split; [exact (srounds_valid _ _ _ S)|exact F]|exact O].
Qed.

Lemma sub_ord (x y : float) :
  fin x -> fin y -> rnd (Z.abs (ord x - ord y)) 1 < 2 ^ 277 ->
  fin (x -! y) /\ ord (x -! y) = srnd (ord x - ord y).
Proof.
  intros Fx Fy B.
  destruct (fin_cases x Fx) as [[sx ->]|(sx & mx & ex & -> & Vx)];
  destruct (fin_cases y Fy) as [[sy ->]|(sy & my & ey & -> & Vy)].
  - destruct sx, sy; split; try split; reflexivity.
  - change (S754_zero sx -! S754_finite sy my ey) with (S754_finite (negb sy) my ey).
    assert (V' : valid (S754_finite (negb sy) my ey) = true) by exact Vy.
    split; [split; [exact V'|reflexivity]|].
    change (ord (S754_zero sx)) with 0. rewrite Z.sub_0_l, srnd_opp.
    rewrite (srnd_exact _ Vy). rewrite !ord_finite. destruct sy; unfold cond_Zopp, negb; lia.
  - change (S754_finite sx mx ex -! S754_zero sy) with (S754_finite sx mx ex).
    split; [exact Fx|]. change (ord (S754_zero sy)) with 0.
    rewrite Z.sub_0_r. symmetry. apply srnd_exact. exact Vx.
  - pose proof (sub_finite_spec sx sy mx my ex ey Vx Vy) as S.
    destruct (srounds_finite _ _ _ S B) as [F O].
    split; [split; [exact (srounds_valid _ _ _ S)|exact F]|exact O].
Qed.

Lemma mul_ord (x y : float) :
  fin x -> fin y -> 0 <= ord x -> 0 <= ord y ->
  rnd (ord x * ord y) (2 ^ 149) < 2 ^ 277 ->
  fin (x *! y) /\ ord (x *! y) = rnd (ord x * ord y) (2 ^ 149).
Proof.
  intros Fx Fy Hx Hy B.
  destruct (fin_cases x Fx) as [[sx ->]|(sx & mx & ex & -> & Vx)];
  destruct (fin_cases y Fy) as [[sy ->]|(sy & my & ey & -> & Vy)].
  - split; [split; reflexivity|]. simpl ord. rewrite rnd_0 by lia. reflexivity.
  - split; [split; reflexivity|]. change (ord (S754_zero sx)) with 0.
    rewrite Z.mul_0_l, rnd_0 by lia. reflexivity.
  - split; [split; reflexivity|]. change (ord (S754_zero sy)) with 0.
    rewrite Z.mul_0_r, rnd_0 by lia. reflexivity.
  - destruct (ord_sign _ _ _ Vx) as [Sx _]. destruct (ord_sign _ _ _ Vy) as [Sy _].
    destruct sx; [specialize (Sx eq_refl); lia|].
    destruct sy; [specialize (Sy eq_refl); lia|].
    pose proof (mul_finite_spec false false mx my ex ey Vx Vy) as S.
    rewrite !ord_finite in *. unfold cond_Zopp in *.
    destruct (rounds_to_finite _ _ _ S B) as (F & O & _).
    split; [split; [exact (rounds_to_valid _ _ _ S)|exact F]|exact O].
Qed.

Lemma div_ord (x y : float) :
  fin x -> fin y -> 0 <= ord x -> 0 < ord y ->
  rnd (ord x * 2 ^ 149) (ord y) < 2 ^ 277 ->
  fin (x /! y) /\ ord (x /! y) = rnd (ord x * 2 ^ 149) (ord y).
Proof.
  intros Fx Fy Hx Hy B.
  destruct (fin_cases y Fy) as [[sy ->]|(sy & my & ey & -> & Vy)]; [simpl in Hy; lia|].
  destruct (ord_sign _ _ _ Vy) as [Sy _].
  destruct sy; [specialize (Sy eq_refl); lia|].
  destruct (fin_cases x Fx) as [[sx ->]|(sx & mx & ex & -> & Vx)].
  - split; [split; reflexivity|]. change (ord (S754_zero sx)) with 0.
    rewrite Z.mul_0_l, rnd_0 by lia. reflexivity.
  - destruct (ord_sign _ _ _ Vx) as [Sx _].
    destruct sx; [specialize (Sx eq_refl); lia|].
    pose proof (div_finite_spec false false mx my ex ey Vx Vy) as S.
    rewrite !ord_finite in *. unfold cond_Zopp in *.
    destruct (rounds_to_finite _ _ _ S B) as (F & O & _).
    split; [split; [exact (rounds_to_valid _ _ _ S)|exact F]|exact O].
Qed.

Lemma fabs_ord (x : float) : fin x -> fin (fabs x) /\ ord (fabs x) = Z.abs (ord x).
Proof.
  intros Fx.
  destruct (fin_cases x Fx) as [[sx ->]|(sx & mx & ex & -> & Vx)].
  - split; [split; reflexivity|reflexivity].
  - assert (V' : valid (S754_finite false mx ex) = true) by exact Vx.
    split; [split; [exact V'|reflexivity]|].
    destruct (ord_sign _ _ _ V') as [_ S]. specialize (S eq_refl).
    change (fabs (S754_finite sx mx ex)) with (S754_finite false mx ex).
    rewrite !ord_finite in *. destruct sx; unfold cond_Zopp in *; lia.
Qed.

(** [fmod] is exact: on a nonnegative [x] and a positive [y] it returns the
    remainder of the exact values, with the sign bit of [x]. *)
Lemma fmod_ord (x y : float) :
  fin x -> fin y -> 0 <= ord x -> 0 < ord y ->
  fin (fmod x y) /\ ord (fmod x y) = ord x mod ord y /\ signbit (fmod x y) = signbit x.
Proof.
  intros Fx Fy Hx Hy.
  destruct (fin_cases y Fy) as [[sy ->]|(sy & my & ey & -> & Vy)]; [simpl in Hy; lia|].
  destruct (fin_cases x Fx) as [[sx ->]|(sx & mx & ex & -> & Vx)].
  - split; [split; reflexivity|]. split; [|reflexivity].
    change (ord (S754_zero sx)) with 0. rewrite Z.mod_0_l by lia. reflexivity.
  - destruct (ord_sign _ _ _ Vx) as [Sx _].
    destruct sx; [specialize (Sx eq_refl); lia|]. clear Sx.
    destruct (valid_bounds _ _ _ Vx) as (Ex & Mx & _).
    destruct (valid_bounds _ _ _ Vy) as (Ey & My & _).
    assert (Oy : ord (S754_finite sy my ey) = mag my ey).
    { destruct (ord_sign _ _ _ Vy) as [Sy _].
      destruct sy; [specialize (Sy eq_refl); lia|reflexivity]. }
    rewrite Oy, ord_finite. unfold cond_Zopp.
    unfold fmod. cbv zeta.
    pose proof (aligned_ord false mx ex ey ltac:(lia) ltac:(lia)) as A.
    pose proof (aligned_ord false my ey ex ltac:(lia) ltac:(lia)) as A'.
    rewrite (Z.min_comm ey ex) in A'. rewrite !ord_finite in A, A'. unfold cond_Zopp in A, A'.
    destruct (shl_align_spec mx ex (Z.min ex ey)) as [_ Sa].
    destruct (shl_align_spec my ey (Z.min ex ey)) as [_ Sb].
    set (a := Zpos (fst (shl_align mx ex (Z.min ex ey)))) in *.
    set (b := Zpos (fst (shl_align my ey (Z.min ex ey)))) in *.
    set (k := Z.min ex ey - emin32) in *.
    assert (Hk : 0 <= k) by (subst k; lia).
    pose proof (pow2_pos k Hk) as Hp.
    assert (Ha : 0 < a) by (subst a; lia). assert (Hb : 0 < b) by (subst b; lia).
    rewrite Z.rem_mod_nonneg by lia. unfold cond_Zopp.
    pose proof (Z.mod_pos_bound a b Hb) as Hr.
    assert (Hr24 : a mod b < 2 ^ 24).
    { destruct (Z_le_gt_dec ey ex) as [L|G].
      - replace (ey - Z.min ey (Z.min ex ey)) with 0 in Sb by lia.
        change (2 ^ 0) with 1 in Sb. lia.
      - replace (ex - Z.min ex (Z.min ex ey)) with 0 in Sa by lia.
        change (2 ^ 0) with 1 in Sa. pose proof (Z.mod_le a b ltac:(lia) Hb). lia. }
    assert (EN : mag mx ex mod mag my ey = (a mod b) * 2 ^ k).
    { rewrite <- A, <- A'. apply mod_scale; lia. }
    rewrite EN.
    pose proof (binary_normalize_spec (a mod b) (Z.min ex ey) false ltac:(lia)) as S.
    fold k in S.
    assert (RE : rnd ((a mod b) * 2 ^ k) 1 = (a mod b) * 2 ^ k) by (apply rnd_exact_gen; lia).
    assert (Hn : 0 <= (a mod b) * 2 ^ k) by nia.
    assert (B : rnd (Z.abs ((a mod b) * 2 ^ k)) 1 < 2 ^ 277).
    { rewrite Z.abs_eq, RE by lia.
      assert (2 ^ k <= 2 ^ 253) by (apply pow2_le; subst k; unfold emin32 in *; lia).
      change (2 ^ 277) with (2 ^ 24 * 2 ^ 253). nia. }
    destruct (srounds_finite _ _ _ S B) as [F O].
    split; [split; [exact (srounds_valid _ _ _ S)|exact F]|].
    split; [rewrite O, srnd_nonneg_eq, RE by lia; reflexivity|].
    unfold srounds_to in S.
    destruct (Z.compare_spec ((a mod b) * 2 ^ k) 0) as [C|C|C]; try lia.
    + rewrite S. reflexivity.
    + rewrite Z.abs_eq in B by lia.
      destruct (rounds_to_finite _ _ _ S B) as (_ & _ & E). 
      destruct (E ltac:(rewrite RE; lia)) as (m & e & ->). reflexivity.
Qed.

(** Every operation returns a value of the type. *)
Lemma valid_add (x y : float) : valid x = true -> valid y = true -> valid (x +! y) = true.
Proof.
  intros Vx Vy.
  destruct x as [sx|sx| |sx mx ex]; destruct y as [sy|sy| |sy my ey];
    try exact Vx; try exact Vy; try reflexivity;
    try (destruct sx, sy; reflexivity).
  exact (srounds_valid _ _ _ (add_finite_spec sx sy mx my ex ey Vx Vy)).
Qed.

Lemma valid_sub (x y : float) : valid x = true -> valid y = true -> valid (x -! y) = true.
Proof.
  intros Vx Vy.
  destruct x as [sx|sx| |sx mx ex]; destruct y as [sy|sy| |sy my ey];
    try exact Vx; try exact Vy; try reflexivity;
    try (destruct sx, sy; reflexivity).
  exact (srounds_valid _ _ _ (sub_finite_spec sx sy mx my ex ey Vx Vy)).
Qed.

Lemma valid_mul (x y : float) : valid x = true -> valid y = true -> valid (x *! y) = true.
Proof.
  intros Vx Vy.
  destruct x as [sx|sx| |sx mx ex]; destruct y as [sy|sy| |sy my ey];
    try reflexivity.
  exact (rounds_to_valid _ _ _ (mul_finite_spec sx sy mx my ex ey Vx Vy)).
Qed.

Lemma valid_div (x y : float) : valid x = true -> valid y = true -> valid (x /! y) = true.
Proof.
  intros Vx Vy.
  destruct x as [sx|sx| |sx mx ex]; destruct y as [sy|sy| |sy my ey];
    try reflexivity.
  exact (rounds_to_valid _ _ _ (div_finite_spec sx sy mx my ex ey Vx Vy)).
Qed.

Lemma valid_fabs (x : float) : valid x = true -> valid (fabs x) = true.
Proof. destruct x; auto. Qed.

Lemma valid_neg (x : float) : valid x = true -> valid (neg x) = true.
Proof. destruct x; auto. Qed.

Lemma valid_of_int (i : Z) : valid (of_int i) = true.
Proof.
  unfold of_int.
  exact (srounds_valid _ _ _ (binary_normalize_spec i 0 false ltac:(unfold emin32; lia))).
Qed.

Lemma valid_fmod (x y : float) : valid x = true -> valid y = true -> valid (fmod x y) = true.
Proof.
  intros Vx Vy.
  destruct x as [sx|sx| |sx mx ex]; destruct y as [sy|sy| |sy my ey];
    try exact Vx; try reflexivity.
  destruct (valid_bounds _ _ _ Vx) as (Ex & _). destruct (valid_bounds _ _ _ Vy) as (Ey & _).
  unfold fmod. cbv zeta.
  exact (srounds_valid _ _ _ (binary_normalize_spec _ (Z.min ex ey) sx ltac:(lia))).
Qed.

(** ** Bounds and monotonicity of a single operation *)

Lemma fin_valid (x : float) : fin x -> valid x = true.
Proof. intros [V _]. exact V. Qed.

Lemma ltb_fin (x y : float) : fin x -> fin y -> (x <! y) = (ord x <? ord y).
Proof. intros [? ?] [? ?]. apply ltb_ord; assumption. Qed.

Lemma leb_fin (x y : float) : fin x -> fin y -> leb x y = (ord x <=? ord y).
Proof. intros [? ?] [? ?]. apply leb_ord; assumption. Qed.

Lemma div_mono (x x' c : float) :
  fin x -> fin x' -> fin c -> 0 <= ord x <= ord x' -> 0 < ord c ->
  rnd (ord x' * 2 ^ 149) (ord c) < 2 ^ 277 ->
  fin (x /! c) /\ 0 <= ord (x /! c) <= rnd (ord x' * 2 ^ 149) (ord c).
Proof.
  intros Fx Fx' Fc Hx Hc B.
  assert (M : rnd (ord x * 2 ^ 149) (ord c) <= rnd (ord x' * 2 ^ 149) (ord c))
    by (apply rnd_mono; lia).
  destruct (div_ord x c Fx Fc ltac:(lia) Hc ltac:(lia)) as [F O].
  split; [exact F|]. rewrite O. split; [apply rnd_nonneg; lia|exact M].
Qed.

Lemma mul_mono (x x' c : float) :
  fin x -> fin x' -> fin c -> 0 <= ord x <= ord x' -> 0 <= ord c ->
  rnd (ord x' * ord c) (2 ^ 149) < 2 ^ 277 ->
  fin (x *! c) /\ 0 <= ord (x *! c) <= rnd (ord x' * ord c) (2 ^ 149).
Proof.
  intros Fx Fx' Fc Hx Hc B.
  assert (M : rnd (ord x * ord c) (2 ^ 149) <= rnd (ord x' * ord c) (2 ^ 149))
    by (apply rnd_mono; nia).
  destruct (mul_ord x c Fx Fc ltac:(lia) Hc ltac:(lia)) as [F O].
  split; [exact F|]. rewrite O. split; [apply rnd_nonneg; nia|exact M].
Qed.

Lemma mul_mono_r (c y y' : float) :
  fin c -> fin y -> fin y' -> 0 <= ord c -> 0 <= ord y <= ord y' ->
  rnd (ord c * ord y') (2 ^ 149) < 2 ^ 277 ->
  fin (c *! y) /\ 0 <= ord (c *! y) <= rnd (ord c * ord y') (2 ^ 149).
Proof.
  intros Fc Fy Fy' Hc Hy B.
  assert (M : rnd (ord c * ord y) (2 ^ 149) <= rnd (ord c * ord y') (2 ^ 149))
    by (apply rnd_mono; nia).
  destruct (mul_ord c y Fc Fy Hc ltac:(lia) ltac:(lia)) as [F O].
  split; [exact F|]. rewrite O. split; [apply rnd_nonneg; nia|exact M].
Qed.

Lemma srnd_small (N : Z) : Z.abs N <= 2 ^ 200 -> rnd (Z.abs N) 1 < 2 ^ 277.
Proof.
  intros H. pose proof (rnd_mono (Z.abs N) (2 ^ 200) 1 ltac:(lia) ltac:(lia)) as M.
  replace (rnd (2 ^ 200) 1) with (2 ^ 200) in M by closed.
  assert (2 ^ 200 < 2 ^ 277) by closed. lia.
Qed.

Lemma add_small (x y : float) :
  fin x -> fin y -> Z.abs (ord x + ord y) <= 2 ^ 200 ->
  fin (x +! y) /\ ord (x +! y) = srnd (ord x + ord y).
Proof. intros Fx Fy H. apply add_ord; auto. apply srnd_small; exact H. Qed.

Lemma sub_small (x y : float) :
  fin x -> fin y -> Z.abs (ord x - ord y) <= 2 ^ 200 ->
  fin (x -! y) /\ ord (x -! y) = srnd (ord x - ord y).
Proof. intros Fx Fy H. apply sub_ord; auto. apply srnd_small; exact H. Qed.

(** With gradual underflow a difference is negative as soon as the first
    operand is below the second: [x < y] gives [x - y < 0]. *)
Lemma sub_negative (x y : float) :
  valid x = true -> valid y = true -> (x <! y) = true -> (x -! y <! of_int 0) = true.
Proof.
  intros Vx Vy L. change (of_int 0) with (S754_zero false).
  destruct x as [sx|sx| |sx mx ex]; destruct y as [sy|sy| |sy my ey];
    try discriminate L;
    try (destruct sx; try discriminate L; destruct sy; try discriminate L; reflexivity);
    try (destruct sx; try discriminate L; reflexivity);
    try (destruct sy; try discriminate L; reflexivity).
  assert (Fx : fin (S754_finite sx mx ex)) by (split; auto).
  assert (Fy : fin (S754_finite sy my ey)) by (split; auto).
  rewrite (ltb_fin _ _ Fx Fy) in L. apply Z.ltb_lt in L.
  apply (srounds_negative _ _ _ (sub_finite_spec sx sy mx my ex ey Vx Vy)). lia.
Qed.

(** ** The scene builder *)

(** C6: the scene has exactly 8 entities; the first 4 are stationary at
    height -0.5 with x-coordinates -0.7 + i*0.45 for i = 0..3, the last 4 are
    moving and share the start position (-1.2, 0.2, 0). *)
Theorem generateRectangles_scene :
  length Main.generateRectangles = 8%nat /\
  map isStationary (firstn 4 Main.generateRectangles) = [true; true; true; true] /\
  ys_of (firstn 4 Main.generateRectangles) = repeat (neg (dec 5 10)) 4 /\
  xs_of (firstn 4 Main.generateRectangles)
    = map (fun i => neg (dec 7 10) +! of_int i *! dec 45 100) [0; 1; 2; 3] /\
  map isStationary (skipn 4 Main.generateRectangles) = [false; false; false; false] /\
  map position (skipn 4 Main.generateRectangles)
    = repeat (Vec3 (neg (dec 12 10)) (dec 2 10) (of_int 0)) 4.
Proof. repeat split; vm_compute; reflexivity. Qed.

(** C7 as stated fails: the obstacle list of the evaluator is not the list of
    x-coordinates that the scene builder computes. *)
Lemma stationaryPositions_not_scene_xs :
  xs_of (firstn 4 Main.generateRectangles) <> Main.stationaryPositions.
Proof. vm_compute. discriminate. Qed.

(** C7, as the code has it: the obstacle list equals the stationary
    x-coordinates at indices 0 and 1; at indices 2 and 3 the coordinate
    -0.7f + i*0.45f is the binary32 number just below the listed 0.2f and
    0.65f. *)
Theorem stationaryPositions_vs_scene_xs :
  let obstacle k := nth k Main.stationaryPositions S754_nan in
  xs_of (firstn 4 Main.generateRectangles)
    = [obstacle 0%nat; obstacle 1%nat; pred (obstacle 2%nat); pred (obstacle 3%nat)].
Proof. vm_compute. reflexivity. Qed.

(** ** The motion evaluator *)

Section MotionEvaluator.

Variable sin : float -> float.

(** The loop is a search for the first obstacle nearer than the jump radius. *)
Lemma jumpLoop_find (x y : float) (positions : list float) :
  Main.jumpLoop sin x y positions
  = match find (near x) positions with
    | Some stationaryX => y +! Main.jumpOffset sin x stationaryX
    | None => y
    end.
Proof.
  induction positions as [|p rest IH]; simpl; [reflexivity|].
  unfold near at 1. destruct (fabs (x -! p) <! Main.jumpRadius); auto.
Qed.

(** C8: for every input (any rectangle, any float time, any index; started
  or not) the height returned is the base height plus the offset of the
  first obstacle, in listed order, that is nearer to the returned x than
  the jump radius, and of no other obstacle; without such an obstacle it is
  the base height: at most one offset is added. *)
Theorem jump_first_match_only (rect : Rectangle) (time : float) (rectIndex : Z) :
  let p := Main.updateMovingRectanglePosition sin rect time rectIndex in
  vy p = match find (near (vx p)) Main.stationaryPositions with
         | Some stationaryX => Main.baseY +! Main.jumpOffset sin (vx p) stationaryX
         | None => Main.baseY
         end.
Proof.
  intros p. subst p. unfold Main.updateMovingRectanglePosition.
  destruct (Main.adjustedTime0 time rectIndex <! of_int 0).
  - cbn [vx vy].
    replace (find (near (neg (dec 12 10))) Main.stationaryPositions)
      with (@None float) by closed.
    reflexivity.
  - cbn [vx vy]. apply jumpLoop_find.
Qed.

(** C9: the rectangle argument is not used: the position depends on the
  time and the index only. *)
Theorem position_independent_of_rect (r1 r2 : Rectangle) (time : float) (rectIndex : Z) :
  Main.updateMovingRectanglePosition sin r1 time rectIndex
    = Main.updateMovingRectanglePosition sin r2 time rectIndex.
Proof. reflexivity. Qed.

(** The loop of [main (2).cpp], with its local constants, is the loop of
  [src/main.cpp]. *)
Lemma jumpLoop_copies (x y : float) (positions : list float) :
  Main2.jumpLoop sin Main.jumpHeight Main.jumpRadius x y positions
    = Main.jumpLoop sin x y positions.
Proof.
  induction positions as [|p rest IH]; simpl; [reflexivity|].
  rewrite IH. reflexivity.
Qed.

(** C10: the two files define the same evaluator and the same scene. *)
Theorem copies_agree (rect : Rectangle) (time : float) (rectIndex : Z) :
  Main.updateMovingRectanglePosition sin rect time rectIndex
    = Main2.updateMovingRectanglePosition sin rect time rectIndex
  /\ Main.generateRectangles = Main2.generateRectangles.
Proof.
  split; [|vm_compute; reflexivity].
  unfold Main.updateMovingRectanglePosition, Main2.updateMovingRectanglePosition,
    Main.adjustedTime0, Main.horizontal.
  cbv zeta.
  change (dec 15 10) with Main.delayBetweenRectangles.
  destruct (time -! of_int rectIndex *! Main.delayBetweenRectangles <! of_int 0);
    [reflexivity|].
  change (of_int 6) with Main.cycleTime.
  set (x := neg (dec 12 10) +! _ *! dec 24 10).
  change (dec 35 100) with Main.jumpHeight.
  change (dec 12 100) with Main.jumpRadius.
  rewrite jumpLoop_copies. reflexivity.
Qed.

(** C4 at a concrete input: with time = 2.375 and index 0 the rectangle is
  exactly at the second obstacle, x = -0.25, and its height is the base
  height plus [jumpHeight * sin 3.14159f], not the base height plus
  [jumpHeight]. *)
Theorem obstacle_centre_height (rect : Rectangle) :
  Main.updateMovingRectanglePosition sin rect (dec 2375 1000) 0
    = Vec3 (neg (dec 25 100)) (Main.baseY +! Main.jumpHeight *! sin Main.pi_lit) (of_int 0).
Proof.
  unfold Main.updateMovingRectanglePosition.
  replace (Main.adjustedTime0 (dec 2375 1000) 0 <! of_int 0) with false
    by closed.
  replace (Main.horizontal (Main.adjustedTime0 (dec 2375 1000) 0))
    with (neg (dec 25 100)) by closed.
  rewrite jumpLoop_find.
  replace (find (near (neg (dec 25 100))) Main.stationaryPositions)
    with (Some (neg (dec 25 100))) by closed.
  unfold Main.jumpOffset.
  replace (of_int 1 -! fabs (neg (dec 25 100) -! neg (dec 25 100)) /! Main.jumpRadius)
    with (of_int 1) by closed.
  replace (of_int 1 *! Main.pi_lit) with Main.pi_lit by closed.
  reflexivity.
Qed.

(** Whatever the library returns for [sin 3.14159f], as long as it is at most
    one half (the exact sine is about 2.5e-6), the height over the obstacle
    is strictly below the base height plus [jumpHeight]. *)
Lemma centre_height_below_peak (s : float) :
  fin s -> 0 <= ord s <= ord (dec 5 10) ->
  (Main.baseY +! Main.jumpHeight *! s <! Main.baseY +! Main.jumpHeight) = true.
Proof.
  intros Fs Hs.
  assert (Fh : fin Main.jumpHeight) by fin_const.
  assert (F5 : fin (dec 5 10)) by fin_const.
  assert (Hh : 0 <= ord Main.jumpHeight) by (vm_compute; discriminate).
  destruct (mul_mono_r Main.jumpHeight s (dec 5 10) Fh Fs F5 Hh Hs ltac:(closed))
    as (Fo & Ho).
  assert (Fb : fin Main.baseY) by fin_const.
  assert (Bb : 0 <= ord Main.baseY < 2 ^ 199) by (vm_compute; split; [discriminate|reflexivity]).
  assert (Bo : rnd (ord Main.jumpHeight * ord (dec 5 10)) (2 ^ 149) < 2 ^ 199) by closed.
  assert (P200 : 2 ^ 199 + 2 ^ 199 = 2 ^ 200) by closed.
  destruct (add_small Main.baseY (Main.jumpHeight *! s) Fb Fo ltac:(lia)) as [Fy Oy].
  assert (Fp : fin (Main.baseY +! Main.jumpHeight)) by fin_const.
  rewrite (ltb_fin _ _ Fy Fp). apply Z.ltb_lt. rewrite Oy.
  apply Z.le_lt_trans
    with (srnd (ord Main.baseY + rnd (ord Main.jumpHeight * ord (dec 5 10)) (2 ^ 149)));
    [apply srnd_mono; lia|closed].
Qed.

(** *** Staggered start *)

(** C1: before its start delay has elapsed (time < rectIndex * 1.5) the
    rectangle is returned at the parked position (-1.2, 0.2, 0).  This holds
    for every index; for the indices 0..3 of the scene the delay is exactly
    rectIndex * 1.5 ([delay_exact] below). *)
Theorem parked_before_start (rect : Rectangle) (rectIndex : Z) (time : float) :
  valid time = true ->
  (time <! of_int rectIndex *! Main.delayBetweenRectangles) = true ->
  Main.updateMovingRectanglePosition sin rect time rectIndex
    = Vec3 (neg (dec 12 10)) (dec 2 10) (of_int 0).
Proof.
  intros Vt L. unfold Main.updateMovingRectanglePosition, Main.adjustedTime0.
  rewrite sub_negative; auto.
  apply valid_mul; [apply valid_of_int|reflexivity].
Qed.

(** For the four indices of the scene the delay [rectIndex * 1.5f] is exact:
    0, 1.5, 3 and 4.5. *)
Lemma delay_exact (rectIndex : Z) :
  0 <= rectIndex < 4 ->
  fin (of_int rectIndex *! Main.delayBetweenRectangles) /\
  ord (of_int rectIndex *! Main.delayBetweenRectangles) = 3 * rectIndex * 2 ^ 148.
Proof.
  intros H.
  assert (C : rectIndex = 0 \/ rectIndex = 1 \/ rectIndex = 2 \/ rectIndex = 3) by lia.
  destruct C as [-> | [-> | [-> | ->]]]; split; try split; vm_compute; reflexivity.
Qed.

(** A rectangle that has started has a time at or after its delay, and its
    adjusted time is the rounded exact difference. *)
Lemma adjusted_spec (t c : float) :
  fin t -> fin c -> 0 <= ord c -> (t -! c <! of_int 0) = false ->
  fin (t -! c) /\ ord (t -! c) = srnd (ord t - ord c) /\ 0 <= ord t - ord c.
Proof.
  intros Ft Fc Hc S.
  assert (H : ord c <= ord t).
  { destruct (Z_le_gt_dec (ord c) (ord t)) as [L|G]; [exact L|].
    assert (L : (t <! c) = true) by (rewrite (ltb_fin _ _ Ft Fc); apply Z.ltb_lt; lia).
    rewrite (sub_negative t c (fin_valid _ Ft) (fin_valid _ Fc) L) in S. discriminate. }
  assert (B : rnd (Z.abs (ord t - ord c)) 1 < 2 ^ 277).
  { rewrite Z.abs_eq by lia.
    pose proof (rnd_mono (ord t - ord c) (ord t) 1 ltac:(lia) ltac:(lia)) as M.
    rewrite <- (srnd_nonneg_eq (ord t)) in M by lia.
    rewrite (srnd_exact t (fin_valid _ Ft)) in M.
    pose proof (ord_bound t (fin_valid _ Ft)). lia. }
  destruct (sub_ord t c Ft Fc B) as [F O].
  split; [exact F|]. split; [exact O|lia].
Qed.

(** *** Horizontal position *)

(** The horizontal position of a started rectangle is [x_of] of its exact
    adjusted time; the guard [x > 1.2f] never fires. *)
Lemma horizontal_spec (a : float) :
  fin a -> 0 <= ord a ->
  fin (Main.horizontal a) /\ ord (Main.horizontal a) = x_of (ord a).
Proof.
  intros Fa Ha. unfold Main.horizontal.
  assert (F6 : fin Main.cycleTime) by fin_const.
  assert (H6 : 0 < ord Main.cycleTime) by closed.
  destruct (fmod_ord a Main.cycleTime Fa F6 Ha H6) as (Fr & Or & _).
  set (r := fmod a Main.cycleTime) in *.
  pose proof (Z.mod_pos_bound (ord a) (ord Main.cycleTime) H6) as Hr. rewrite <- Or in Hr.
  destruct (div_mono r Main.cycleTime Main.cycleTime Fr F6 F6 ltac:(lia) H6
              ltac:(closed)) as (Fq & Hq).
  replace (rnd (ord Main.cycleTime * 2 ^ 149) (ord Main.cycleTime)) with (ord (of_int 1))
    in Hq by closed.
  destruct (div_ord r Main.cycleTime Fr F6 ltac:(lia) H6) as [_ Oq].
  { apply Z.le_lt_trans with (ord (of_int 1)); [|vm_compute; reflexivity].
    rewrite <- (proj2 (div_ord r Main.cycleTime Fr F6 ltac:(lia) H6
                   ltac:(apply Z.le_lt_trans with (rnd (ord Main.cycleTime * 2 ^ 149) (ord Main.cycleTime));
                         [apply rnd_mono; lia|vm_compute; reflexivity]))).
    lia. }
  set (q := r /! Main.cycleTime) in *.
  assert (F1 : fin (of_int 1)) by fin_const.
  assert (F24 : fin (dec 24 10)) by fin_const.
  assert (H24 : 0 <= ord (dec 24 10)) by (vm_compute; discriminate).
  destruct (mul_mono q (of_int 1) (dec 24 10) Fq F1 F24 Hq H24
              ltac:(closed)) as (Fp & Hp).
  replace (rnd (ord (of_int 1) * ord (dec 24 10)) (2 ^ 149)) with (ord (dec 24 10))
    in Hp by closed.
  destruct (mul_ord q (dec 24 10) Fq F24 ltac:(lia) H24) as [_ Op].
  { apply Z.le_lt_trans with (ord (dec 24 10)); [|vm_compute; reflexivity].
    assert (rnd (ord q * ord (dec 24 10)) (2 ^ 149)
            <= rnd (ord (of_int 1) * ord (dec 24 10)) (2 ^ 149)) by (apply rnd_mono; nia).
    replace (rnd (ord (of_int 1) * ord (dec 24 10)) (2 ^ 149)) with (ord (dec 24 10))
      in H by closed. exact H. }
  set (p := q *! dec 24 10) in *.
  assert (F12 : fin (neg (dec 12 10))) by fin_const.
  assert (E24 : ord (dec 24 10) = 2 * ord (dec 12 10)) by closed.
  assert (E12 : ord (neg (dec 12 10)) = - ord (dec 12 10)) by closed.
  assert (B12 : 0 < ord (dec 12 10) < 2 ^ 151) by (vm_compute; split; reflexivity).
  assert (P200 : 2 ^ 152 < 2 ^ 200) by closed.
  destruct (add_small (neg (dec 12 10)) p F12 Fp ltac:(lia)) as [Fx Ox].
  set (x := neg (dec 12 10) +! p) in *.
  assert (Hx : ord x <= ord (dec 12 10)).
  { rewrite Ox.
    apply Z.le_trans with (srnd (ord (neg (dec 12 10)) + ord (dec 24 10)));
      [apply srnd_mono; lia|vm_compute; discriminate]. }
  assert (F12' : fin (dec 12 10)) by fin_const.
  change (x >! dec 12 10) with (dec 12 10 <! x).
  rewrite (ltb_fin _ _ F12' Fx).
  replace (ord (dec 12 10) <? ord x) with false by (symmetry; apply Z.ltb_ge; lia).
  split; [exact Fx|].
  rewrite Ox. unfold x_of, D6. rewrite Op, Oq, Or. reflexivity.
Qed.

(** Within one cycle the horizontal position is monotone in the exact
    adjusted time. *)
Lemma x_of_mono (a a' : Z) :
  0 <= a <= a' -> a / D6 = a' / D6 -> x_of a <= x_of a'.
Proof.
  intros H Q. unfold x_of.
  assert (H6 : 0 < D6) by closed.
  assert (R : 0 <= a mod D6 <= a' mod D6).
  { pose proof (Z.mod_pos_bound a D6 H6).
    pose proof (Z.div_mod a D6 ltac:(lia)) as E1.
    pose proof (Z.div_mod a' D6 ltac:(lia)) as E2.
    rewrite Q in E1. lia. }
  apply srnd_mono. apply Z.add_le_mono_l.
  assert (H24 : 0 <= ord (dec 24 10)) by (vm_compute; discriminate).
  assert (M1 : rnd ((a mod D6) * 2 ^ 149) D6 <= rnd ((a' mod D6) * 2 ^ 149) D6)
    by (apply rnd_mono; lia).
  pose proof (rnd_nonneg ((a mod D6) * 2 ^ 149) D6 ltac:(lia) H6).
  apply rnd_mono; [nia|reflexivity].
Qed.

(** C5: within one cycle after the start delay the horizontal position is
    monotone in the time. *)
Theorem horizontal_monotone (rect : Rectangle) (rectIndex : Z) (t1 t2 : float) :
  0 <= rectIndex < 4 -> fin t1 -> fin t2 ->
  (Main.adjustedTime0 t1 rectIndex <! of_int 0) = false ->
  (Main.adjustedTime0 t2 rectIndex <! of_int 0) = false ->
  (t1 <! t2) = true ->
  cycle_of (Main.adjustedTime0 t1 rectIndex) = cycle_of (Main.adjustedTime0 t2 rectIndex) ->
  leb (vx (Main.updateMovingRectanglePosition sin rect t1 rectIndex))
      (vx (Main.updateMovingRectanglePosition sin rect t2 rectIndex)) = true.
Proof.
  intros Hi F1 F2 S1 S2 L Q. unfold cycle_of in Q.
  unfold Main.updateMovingRectanglePosition. rewrite S1, S2. cbn [vx].
  unfold Main.adjustedTime0 in *.
  destruct (delay_exact rectIndex Hi) as [Fc Oc].
  set (c := of_int rectIndex *! Main.delayBetweenRectangles) in *.
  assert (Hc : 0 <= ord c) by (rewrite Oc; lia).
  destruct (adjusted_spec t1 c F1 Fc Hc S1) as (Fa1 & Oa1 & N1).
  destruct (adjusted_spec t2 c F2 Fc Hc S2) as (Fa2 & Oa2 & N2).
  rewrite (ltb_fin _ _ F1 F2) in L. apply Z.ltb_lt in L.
  assert (A : 0 <= ord (t1 -! c) <= ord (t2 -! c)).
  { rewrite Oa1, Oa2. split; [|apply srnd_mono; lia].
    change 0 with (srnd 0). apply srnd_mono; lia. }
  destruct (horizontal_spec _ Fa1 ltac:(lia)) as [Fx1 Ox1].
  destruct (horizontal_spec _ Fa2 ltac:(lia)) as [Fx2 Ox2].
  rewrite (leb_fin _ _ Fx1 Fx2). apply Z.leb_le.
  rewrite Ox1, Ox2. apply x_of_mono; assumption.
Qed.

(** *** Periodicity *)

Lemma horizontal_zero (s : bool) :
  Main.horizontal (S754_zero s) = Main.horizontal Main.cycleTime.
Proof. destruct s; vm_compute; reflexivity. Qed.

(** The horizontal position is the same at two adjusted times that are
    exactly one cycle apart. *)
Lemma horizontal_periodic (a a' : float) :
  fin a -> fin a' -> 0 <= ord a -> ord a' = ord a + D6 ->
  Main.horizontal a' = Main.horizontal a.
Proof.
  intros Fa Fa' Ha E.
  assert (F6 : fin Main.cycleTime) by fin_const.
  assert (H6 : 0 < D6) by closed.
  assert (Sa' : signbit a' = false).
  { destruct (fin_cases a' Fa') as [[s ->]|(s & m & e & -> & V)].
    - simpl in E. lia.
    - destruct (ord_sign _ _ _ V) as [Sn _]. destruct s; [specialize (Sn eq_refl); lia|reflexivity]. }
  destruct (fin_cases a Fa) as [[s ->]|(s & m & e & -> & V)].
  - rewrite horizontal_zero. f_equal.
    apply float_eq; try apply Fa'; try reflexivity; try exact Sa'.
    rewrite E. reflexivity.
  - destruct (ord_sign _ _ _ V) as [Sn _].
    destruct s; [specialize (Sn eq_refl); lia|]. clear Sn.
    unfold Main.horizontal.
    destruct (fmod_ord a' Main.cycleTime Fa' F6 ltac:(lia) H6) as (Fr' & Or' & Sr').
    destruct (fmod_ord (S754_finite false m e) Main.cycleTime Fa F6 Ha H6) as (Fr & Or & Sr).
    replace (fmod a' Main.cycleTime) with (fmod (S754_finite false m e) Main.cycleTime);
      [reflexivity|].
    apply float_eq; try apply Fr; try apply Fr'.
    + rewrite Or, Or', E. fold D6.
      rewrite <- (Z.mod_add (ord (S754_finite false m e)) 1 D6) by lia.
      rewrite Z.mul_1_l. reflexivity.
    + rewrite Sr, Sr', Sa'. reflexivity.
Qed.

(** C2, as the code has it: the position repeats after 6.0 whenever the
    adjusted time one period later is exactly 6.0 more, that is, whenever
    neither [time + 6.0f] nor the two subtractions of the delay round. *)
Theorem periodic_when_exact (rect : Rectangle) (rectIndex : Z) (t : float) :
  0 <= rectIndex < 4 -> fin t ->
  (Main.adjustedTime0 t rectIndex <! of_int 0) = false ->
  ord (Main.adjustedTime0 (t +! of_int 6) rectIndex)
    = ord (Main.adjustedTime0 t rectIndex) + ord Main.cycleTime ->
  Main.updateMovingRectanglePosition sin rect t rectIndex
    = Main.updateMovingRectanglePosition sin rect (t +! of_int 6) rectIndex.
Proof.
  intros Hi Ft S E.
  destruct (delay_exact rectIndex Hi) as [Fc Oc].
  unfold Main.updateMovingRectanglePosition. rewrite S.
  unfold Main.adjustedTime0 in *.
  set (c := of_int rectIndex *! Main.delayBetweenRectangles) in *.
  assert (Hc : 0 <= ord c) by (rewrite Oc; lia).
  destruct (adjusted_spec t c Ft Fc Hc S) as (Fa & Oa & N).
  assert (Ha : 0 <= ord (t -! c)).
  { rewrite Oa. change 0 with (srnd 0). apply srnd_mono; lia. }
  assert (H6 : 0 < ord Main.cycleTime) by closed.
  set (a' := t +! of_int 6 -! c) in *.
  assert (Va' : valid a' = true).
  { apply valid_sub; [apply valid_add; [apply Ft|reflexivity]|apply Fc]. }
  assert (Fa' : fin a').
  { split; [exact Va'|]. destruct a' as [s|s| |s m e]; try reflexivity; cbn [ord] in E; lia. }
  assert (S' : (a' <! of_int 0) = false).
  { rewrite (ltb_fin a' (of_int 0) Fa' ltac:(split; reflexivity)).
    apply Z.ltb_ge. change (ord (of_int 0)) with 0. lia. }
  rewrite S'. rewrite (horizontal_periodic (t -! c) a' Fa Fa' Ha E). reflexivity.
Qed.

(** *** Height of the jump *)

Lemma valid_horizontal (a : float) : valid a = true -> valid (Main.horizontal a) = true.
Proof.
  intros V. unfold Main.horizontal. cbv zeta.
  match goal with |- valid (if ?b then _ else _) = true => destruct b end;
    [reflexivity|].
  apply valid_add; [reflexivity|]. apply valid_mul; [|reflexivity].
  apply valid_div; [|reflexivity]. apply valid_fmod; [exact V|reflexivity].
Qed.

(** When the test of the loop succeeds the distance is a finite number below
    the jump radius. *)
Lemma near_fin (x stationaryX : float) :
  valid x = true -> fin stationaryX -> near x stationaryX = true ->
  fin (fabs (x -! stationaryX)) /\
  0 <= ord (fabs (x -! stationaryX)) < ord Main.jumpRadius.
Proof.
  intros Vx Fs N. unfold near in N.
  assert (Vd : valid (x -! stationaryX) = true) by (apply valid_sub; [exact Vx|apply Fs]).
  assert (Fd : fin (x -! stationaryX)).
  { split; [exact Vd|]. destruct (x -! stationaryX) as [s|s| |s m e]; try reflexivity;
      discriminate N. }
  destruct (fabs_ord _ Fd) as [Fa Oa]. split; [exact Fa|].
  assert (Fr : fin Main.jumpRadius) by fin_const.
  rewrite (ltb_fin _ _ Fa Fr) in N. apply Z.ltb_lt in N.
  rewrite Oa in *. lia.
Qed.

Section JumpBounds.

(** The library sine maps the numbers of [0, 3.14159f] into [0, 1]:
    3.14159f is below pi, and 0 and 1 are binary32 numbers, so every
    faithfully rounded sine does. *)
Hypothesis sin_range :
  forall a : float,
    valid a = true -> leb (of_int 0) a = true -> leb a Main.pi_lit = true ->
    valid (sin a) = true /\ leb (of_int 0) (sin a) = true /\ leb (sin a) (of_int 1) = true.

Lemma sin_range_ord (a : float) :
  fin a -> 0 <= ord a <= ord Main.pi_lit ->
  fin (sin a) /\ 0 <= ord (sin a) <= ord (of_int 1).
Proof.
  intros Fa Ha.
  assert (F0 : fin (of_int 0)) by fin_const.
  assert (F1 : fin (of_int 1)) by fin_const.
  assert (Fp : fin Main.pi_lit) by fin_const.
  destruct (sin_range a (fin_valid _ Fa)) as (V & L0 & L1).
  - rewrite (leb_fin _ _ F0 Fa). apply Z.leb_le. change (ord (of_int 0)) with 0. lia.
  - rewrite (leb_fin _ _ Fa Fp). apply Z.leb_le. lia.
  - assert (Fs : fin (sin a)).
    { split; [exact V|]. destruct (sin a) as [s|[|]| |s m e]; try reflexivity; discriminate. }
    rewrite (leb_fin _ _ F0 Fs) in L0. rewrite (leb_fin _ _ Fs F1) in L1.
    apply Z.leb_le in L0. apply Z.leb_le in L1. change (ord (of_int 0)) with 0 in L0.
    split; [exact Fs|lia].
Qed.

(** The height after the jump over one obstacle. *)
Lemma jumpOffset_bounds (x stationaryX : float) :
  valid x = true -> fin stationaryX -> near x stationaryX = true ->
  fin (Main.baseY +! Main.jumpOffset sin x stationaryX) /\
  ord Main.baseY <= ord (Main.baseY +! Main.jumpOffset sin x stationaryX)
                 <= ord (Main.baseY +! Main.jumpHeight).
Proof.
  intros Vx Fs N. destruct (near_fin x stationaryX Vx Fs N) as (Fd & Hd).
  unfold Main.jumpOffset. cbv zeta.
  set (d := fabs (x -! stationaryX)) in *.
  assert (Fr : fin Main.jumpRadius) by fin_const.
  assert (Hr : 0 < ord Main.jumpRadius) by closed.
  assert (F1 : fin (of_int 1)) by fin_const.
  destruct (div_mono d Main.jumpRadius Main.jumpRadius Fd Fr Fr ltac:(lia) Hr
              ltac:(closed)) as (Fq & Hq).
  replace (rnd (ord Main.jumpRadius * 2 ^ 149) (ord Main.jumpRadius)) with (ord (of_int 1))
    in Hq by closed.
  set (q := d /! Main.jumpRadius) in *.
  assert (B1 : 0 < ord (of_int 1) < 2 ^ 200) by (vm_compute; split; reflexivity).
  destruct (sub_small (of_int 1) q F1 Fq ltac:(lia)) as [Fj Oj].
  set (jumpFactor := of_int 1 -! q) in *.
  assert (Hj : 0 <= ord jumpFactor <= ord (of_int 1)).
  { rewrite Oj. split.
    - change 0 with (srnd 0). apply srnd_mono; lia.
    - rewrite <- (srnd_exact (of_int 1)) at 2 by reflexivity. apply srnd_mono; lia. }
  assert (Fp : fin Main.pi_lit) by fin_const.
  assert (Hp : 0 <= ord Main.pi_lit) by (vm_compute; discriminate).
  destruct (mul_mono jumpFactor (of_int 1) Main.pi_lit Fj F1 Fp Hj Hp
              ltac:(closed)) as (Fa & Ha).
  replace (rnd (ord (of_int 1) * ord Main.pi_lit) (2 ^ 149)) with (ord Main.pi_lit)
    in Ha by closed.
  destruct (sin_range_ord _ Fa Ha) as (Fs' & Hs).
  set (s := sin (jumpFactor *! Main.pi_lit)) in *.
  assert (Fh : fin Main.jumpHeight) by fin_const.
  assert (Hh : 0 <= ord Main.jumpHeight) by (vm_compute; discriminate).
  destruct (mul_mono_r Main.jumpHeight s (of_int 1) Fh Fs' F1 Hh Hs
              ltac:(closed)) as (Fo & Ho).
  replace (rnd (ord Main.jumpHeight * ord (of_int 1)) (2 ^ 149)) with (ord Main.jumpHeight)
    in Ho by closed.
  set (o := Main.jumpHeight *! s) in *.
  assert (Fb : fin Main.baseY) by fin_const.
  assert (Bb : 0 <= ord Main.baseY < 2 ^ 199) by (vm_compute; split; [discriminate|reflexivity]).
  assert (Bh : ord Main.jumpHeight < 2 ^ 199) by closed.
  assert (P200 : 2 ^ 199 + 2 ^ 199 = 2 ^ 200) by closed.
  destruct (add_small Main.baseY o Fb Fo ltac:(lia)) as [Fy Oy].
  split; [exact Fy|]. rewrite Oy. split.
  - rewrite <- (srnd_exact Main.baseY) at 1 by reflexivity. apply srnd_mono; lia.
  - replace (ord (Main.baseY +! Main.jumpHeight))
      with (srnd (ord Main.baseY + ord Main.jumpHeight)) by closed.
    apply srnd_mono; lia.
Qed.

Lemma stationaryPositions_fin (stationaryX : float) :
  In stationaryX Main.stationaryPositions -> fin stationaryX.
Proof.
  unfold Main.stationaryPositions. simpl.
  intros [<-|[<-|[<-|[<-|[]]]]]; split; reflexivity.
Qed.

(** C3: the height lies between the base height 0.2f and 0.2f + 0.35f, for
    every index and every time. *)
Theorem jump_bounded (rect : Rectangle) (time : float) (rectIndex : Z) :
  valid time = true ->
  let y := vy (Main.updateMovingRectanglePosition sin rect time rectIndex) in
  leb Main.baseY y = true /\ leb y (Main.baseY +! Main.jumpHeight) = true.
Proof.
  intros Vt y. subst y. unfold Main.updateMovingRectanglePosition.
  destruct (Main.adjustedTime0 time rectIndex <! of_int 0) eqn:S.
  - cbn [vy]. split; vm_compute; reflexivity.
  - cbn [vy]. rewrite jumpLoop_find.
    assert (Vx : valid (Main.horizontal (Main.adjustedTime0 time rectIndex)) = true).
    { apply valid_horizontal. unfold Main.adjustedTime0.
      apply valid_sub; [exact Vt|]. apply valid_mul; [apply valid_of_int|reflexivity]. }
    destruct (find _ Main.stationaryPositions) as [stationaryX|] eqn:Fd.
    + apply find_some in Fd. destruct Fd as [I N].
      destruct (jumpOffset_bounds _ stationaryX Vx (stationaryPositions_fin _ I) N)
        as (Fy & H1 & H2).
      assert (Fb : fin Main.baseY) by fin_const.
      assert (Fh : fin (Main.baseY +! Main.jumpHeight)) by fin_const.
      rewrite (leb_fin _ _ Fb Fy), (leb_fin _ _ Fy Fh). split; apply Z.leb_le; assumption.
    + split; vm_compute; reflexivity.
Qed.

End JumpBounds.

End MotionEvaluator.

(** ** The theorems at concrete inputs *)

Lemma parked_before_start_witness :
  valid (of_int 1) = true /\
  (of_int 1 <! of_int 1 *! Main.delayBetweenRectangles) = true /\
  Main.updateMovingRectanglePosition sin_id rect0 (of_int 1) 1
    = Vec3 (neg (dec 12 10)) (dec 2 10) (of_int 0).
Proof.
  split; [reflexivity|]. split; [reflexivity|].
  apply (parked_before_start sin_id rect0 1 (of_int 1)); reflexivity.
Defined.

Lemma jump_first_match_only_witness :
  near (vx (Main.updateMovingRectanglePosition sin_id rect0 (dec 2375 1000) 0))
       (neg (dec 7 10)) = false /\
  find (near (vx (Main.updateMovingRectanglePosition sin_id rect0 (dec 2375 1000) 0)))
       Main.stationaryPositions = Some (neg (dec 25 100)) /\
  vy (Main.updateMovingRectanglePosition sin_id rect0 (dec 2375 1000) 0)
    = Main.baseY
      +! Main.jumpOffset sin_id
           (vx (Main.updateMovingRectanglePosition sin_id rect0 (dec 2375 1000) 0))
           (neg (dec 25 100)).
Proof.
  assert (F : find (near (vx (Main.updateMovingRectanglePosition sin_id rect0
                                (dec 2375 1000) 0)))
                   Main.stationaryPositions = Some (neg (dec 25 100)))
    by closed.
  split; [closed|]. split; [exact F|].
  pose proof (jump_first_match_only sin_id rect0 (dec 2375 1000) 0) as H.
  cbv zeta in H. rewrite F in H. exact H.
Defined.

Lemma horizontal_monotone_witness :
  0 <= 0 < 4 /\ fin (of_int 1) /\ fin (of_int 2) /\
  (Main.adjustedTime0 (of_int 1) 0 <! of_int 0) = false /\
  (Main.adjustedTime0 (of_int 2) 0 <! of_int 0) = false /\
  (of_int 1 <! of_int 2) = true /\
  cycle_of (Main.adjustedTime0 (of_int 1) 0) = cycle_of (Main.adjustedTime0 (of_int 2) 0) /\
  leb (vx (Main.updateMovingRectanglePosition sin_id rect0 (of_int 1) 0))
      (vx (Main.updateMovingRectanglePosition sin_id rect0 (of_int 2) 0)) = true.
Proof.
  assert (F1 : fin (of_int 1)) by fin_const.
  assert (F2 : fin (of_int 2)) by fin_const.
  assert (Q : cycle_of (Main.adjustedTime0 (of_int 1) 0)
              = cycle_of (Main.adjustedTime0 (of_int 2) 0)) by closed.
  split; [lia|]. split; [exact F1|]. split; [exact F2|].
  split; [reflexivity|]. split; [reflexivity|]. split; [reflexivity|]. split; [exact Q|].
  apply (horizontal_monotone sin_id rect0 0 (of_int 1) (of_int 2));
    try reflexivity; try lia; assumption.
Defined.

Lemma periodic_when_exact_witness :
  0 <= 0 < 4 /\ fin (of_int 3) /\
  (Main.adjustedTime0 (of_int 3) 0 <! of_int 0) = false /\
  ord (Main.adjustedTime0 (of_int 3 +! of_int 6) 0)
    = ord (Main.adjustedTime0 (of_int 3) 0) + ord Main.cycleTime /\
  Main.updateMovingRectanglePosition sin_id rect0 (of_int 3) 0
    = Main.updateMovingRectanglePosition sin_id rect0 (of_int 3 +! of_int 6) 0.
Proof.
  assert (F : fin (of_int 3)) by fin_const.
  assert (E : ord (Main.adjustedTime0 (of_int 3 +! of_int 6) 0)
              = ord (Main.adjustedTime0 (of_int 3) 0) + ord Main.cycleTime)
    by closed.
  split; [lia|]. split; [exact F|]. split; [reflexivity|]. split; [exact E|].
  apply (periodic_when_exact sin_id rect0 0 (of_int 3)); try lia; try assumption; reflexivity.
Defined.

Lemma sin_half_range (a : float) :
  valid a = true -> leb (of_int 0) a = true -> leb a Main.pi_lit = true ->
  valid (sin_half a) = true /\
  leb (of_int 0) (sin_half a) = true /\ leb (sin_half a) (of_int 1) = true.
Proof. intros _ _ _. repeat split. Defined.

Lemma jump_bounded_witness :
  (forall a : float,
     valid a = true -> leb (of_int 0) a = true -> leb a Main.pi_lit = true ->
     valid (sin_half a) = true /\
     leb (of_int 0) (sin_half a) = true /\ leb (sin_half a) (of_int 1) = true) /\
  valid (dec 2375 1000) = true /\
  leb Main.baseY
      (vy (Main.updateMovingRectanglePosition sin_half rect0 (dec 2375 1000) 0)) = true /\
  leb (vy (Main.updateMovingRectanglePosition sin_half rect0 (dec 2375 1000) 0))
      (Main.baseY +! Main.jumpHeight) = true.
Proof.
  split; [exact sin_half_range|]. split; [reflexivity|].
  exact (jump_bounded sin_half sin_half_range rect0 (dec 2375 1000) 0 eq_refl).
Defined.

(** C2 as stated fails: at time 0.01 and index 0 the position one period
    later differs. *)
Lemma not_periodic_at_0_01 :
  ~ (forall (sin : float -> float) (rect : Rectangle) (rectIndex : Z) (t : float),
       (Main.adjustedTime0 t rectIndex <! of_int 0) = false ->
       Main.updateMovingRectanglePosition sin rect t rectIndex
         = Main.updateMovingRectanglePosition sin rect (t +! of_int 6) rectIndex).
Proof.
  intros H.
  specialize (H sin_id rect0 0 (dec 1 100) eq_refl).
  vm_compute in H. discriminate H.
Qed.

(** * The rest of the program: trajectory, jump zones, render loop, vertex template *)

(** ** The start guard and the trajectory *)

Lemma sub_zero_r (x : float) : x -! S754_zero false = x.
Proof. destruct x as [[|]|[|]| |s m e]; reflexivity. Qed.

(** The exact difference of a time at or after the delay is not negative and
    does not overflow. *)
Lemma adjusted_ge (t c : float) :
  fin t -> fin c -> 0 <= ord c <= ord t ->
  fin (t -! c) /\ ord (t -! c) = srnd (ord t - ord c) /\ 0 <= ord (t -! c).
Proof.
  intros Ft Fc H.
  assert (B : rnd (Z.abs (ord t - ord c)) 1 < 2 ^ 277).
  { rewrite Z.abs_eq by lia.
    pose proof (rnd_mono (ord t - ord c) (ord t) 1 ltac:(lia) ltac:(lia)) as M.
    rewrite <- (srnd_nonneg_eq (ord t)) in M by lia.
    rewrite (srnd_exact t (fin_valid _ Ft)) in M.
    pose proof (ord_bound t (fin_valid _ Ft)). lia. }
  destruct (sub_ord t c Ft Fc B) as [F O].
  split; [exact F|]. split; [exact O|].
  rewrite O. change 0 with (srnd 0). apply srnd_mono. lia.
Qed.

Lemma x_of_range (a : Z) :
  0 <= a -> ord (neg (dec 12 10)) <= x_of a <= ord (dec 12 10).
Proof.
  intros Ha. unfold x_of.
  assert (H6 : 0 < D6) by closed.
  pose proof (Z.mod_pos_bound a D6 H6) as Hr.
  assert (H24 : 0 <= ord (dec 24 10)) by (vm_compute; discriminate).
  pose proof (rnd_nonneg ((a mod D6) * 2 ^ 149) D6 ltac:(lia) H6) as Q0.
  assert (Q1 : rnd ((a mod D6) * 2 ^ 149) D6 <= ord (of_int 1)).
  { replace (ord (of_int 1)) with (rnd (D6 * 2 ^ 149) D6) by closed.
    apply rnd_mono; lia. }
  set (q := rnd ((a mod D6) * 2 ^ 149) D6) in *.
  assert (P0 : 0 <= rnd (q * ord (dec 24 10)) (2 ^ 149)) by (apply rnd_nonneg; [nia|lia]).
  assert (P1 : rnd (q * ord (dec 24 10)) (2 ^ 149) <= ord (dec 24 10)).
  { replace (ord (dec 24 10)) with (rnd (ord (of_int 1) * ord (dec 24 10)) (2 ^ 149))
      at 2 by closed.
    apply rnd_mono; [nia|lia]. }
  set (p := rnd (q * ord (dec 24 10)) (2 ^ 149)) in *.
  split.
  - rewrite <- (srnd_exact (neg (dec 12 10))) at 1 by reflexivity.
    apply srnd_mono. lia.
  - apply Z.le_trans with (srnd (ord (neg (dec 12 10)) + ord (dec 24 10)));
      [apply srnd_mono; lia|vm_compute; discriminate].
Qed.

Section Trajectory.

Variable sin : float -> float.

(** X1: for a finite time and a rectangle index 0..3 the guard
    [adjustedTime < 0] holds exactly when [time] is below the delay
    [rectIndex * 1.5f] of the rectangle: the subtraction never rounds a
    difference across zero. *)
Theorem parked_iff_before_delay (time : float) (rectIndex : Z) :
  fin time -> 0 <= rectIndex < 4 ->
  (Main.adjustedTime0 time rectIndex <! of_int 0)
    = (time <! of_int rectIndex *! Main.delayBetweenRectangles).
Proof.
  intros Ft Hi. destruct (delay_exact rectIndex Hi) as [Fc Oc].
  unfold Main.adjustedTime0.
  set (c := of_int rectIndex *! Main.delayBetweenRectangles) in *.
  destruct (time <! c) eqn:L.
  - apply sub_negative; [apply Ft|apply Fc|exact L].
  - rewrite (ltb_fin _ _ Ft Fc) in L. apply Z.ltb_ge in L.
    destruct (adjusted_ge time c Ft Fc ltac:(lia)) as (Fa & _ & Ha).
    assert (F0 : fin (of_int 0)) by fin_const.
    rewrite (ltb_fin _ _ Fa F0). apply Z.ltb_ge. exact Ha.
Qed.

(** X2: for every time and index, rectangle [rectIndex] at [time] is where
    rectangle 0 is at the float time [time - rectIndex * 1.5f]: all moving
    rectangles follow one trajectory, each delayed by its own start. *)
Theorem trajectory_shift (rect : Rectangle) (time : float) (rectIndex : Z) :
  Main.updateMovingRectanglePosition sin rect time rectIndex
    = Main.updateMovingRectanglePosition sin rect
        (time -! of_int rectIndex *! Main.delayBetweenRectangles) 0.
Proof.
  unfold Main.updateMovingRectanglePosition, Main.adjustedTime0.
  change (of_int 0 *! Main.delayBetweenRectangles) with (S754_zero false).
  rewrite sub_zero_r. reflexivity.
Qed.

(** X3: for a finite time and a rectangle index 0..3 the horizontal
    coordinate returned lies between -1.2f and 1.2f. *)
Theorem horizontal_range (rect : Rectangle) (time : float) (rectIndex : Z) :
  fin time -> 0 <= rectIndex < 4 ->
  let x := vx (Main.updateMovingRectanglePosition sin rect time rectIndex) in
  leb (neg (dec 12 10)) x = true /\ leb x (dec 12 10) = true.
Proof.
  intros Ft Hi x. subst x. unfold Main.updateMovingRectanglePosition.
  destruct (Main.adjustedTime0 time rectIndex <! of_int 0) eqn:S.
  - cbn [vx]. split; closed.
  - cbn [vx]. destruct (delay_exact rectIndex Hi) as [Fc Oc].
    unfold Main.adjustedTime0 in *.
    destruct (adjusted_spec time _ Ft Fc ltac:(lia) S) as (Fa & Oa & N).
    assert (Ha : 0 <= ord (time -! of_int rectIndex *! Main.delayBetweenRectangles)).
    { rewrite Oa. change 0 with (srnd 0). apply srnd_mono. lia. }
    destruct (horizontal_spec _ Fa Ha) as [Fx Ox].
    pose proof (x_of_range _ Ha) as R. rewrite <- Ox in R.
    assert (Fl : fin (neg (dec 12 10))) by fin_const.
    assert (Fu : fin (dec 12 10)) by fin_const.
    rewrite (leb_fin _ _ Fl Fx), (leb_fin _ _ Fx Fu). split; apply Z.leb_le; lia.
Qed.

End Trajectory.

(** ** The guard on x *)

(** The horizontal position before the guard, in terms of the exact adjusted
    time. *)
Lemma unguarded_spec (a : float) :
  fin a -> 0 <= ord a -> fin (unguarded a) /\ ord (unguarded a) = x_of (ord a).
Proof.
  intros Fa Ha. unfold unguarded.
  assert (F6 : fin Main.cycleTime) by fin_const.
  assert (H6 : 0 < ord Main.cycleTime) by closed.
  destruct (fmod_ord a Main.cycleTime Fa F6 Ha H6) as (Fr & Or & _).
  pose proof (Z.mod_pos_bound (ord a) (ord Main.cycleTime) H6) as Hr. rewrite <- Or in Hr.
  set (r := fmod a Main.cycleTime) in *.
  assert (Bq : rnd (ord r * 2 ^ 149) (ord Main.cycleTime) <= ord (of_int 1)).
  { replace (ord (of_int 1))
      with (rnd (ord Main.cycleTime * 2 ^ 149) (ord Main.cycleTime)) by closed.
    apply rnd_mono; lia. }
  assert (B1 : ord (of_int 1) < 2 ^ 277) by closed.
  destruct (div_ord r Main.cycleTime Fr F6 ltac:(lia) H6 ltac:(lia)) as [Fq Oq].
  set (q := r /! Main.cycleTime) in *.
  assert (Hq : 0 <= ord q) by (rewrite Oq; apply rnd_nonneg; lia).
  assert (F24 : fin (dec 24 10)) by fin_const.
  assert (H24 : 0 <= ord (dec 24 10)) by (vm_compute; discriminate).
  assert (Bp : rnd (ord q * ord (dec 24 10)) (2 ^ 149) <= ord (dec 24 10)).
  { replace (ord (dec 24 10)) with (rnd (ord (of_int 1) * ord (dec 24 10)) (2 ^ 149))
      at 2 by closed.
    apply rnd_mono; [nia|lia]. }
  assert (B24 : ord (dec 24 10) < 2 ^ 152) by closed.
  assert (P1 : 2 ^ 152 < 2 ^ 277) by closed.
  destruct (mul_ord q (dec 24 10) Fq F24 Hq H24 ltac:(lia)) as [Fp Op].
  set (p := q *! dec 24 10) in *.
  assert (Hp : 0 <= ord p) by (rewrite Op; apply rnd_nonneg; [nia|lia]).
  assert (F12 : fin (neg (dec 12 10))) by fin_const.
  assert (E12 : ord (neg (dec 12 10)) = - ord (dec 12 10)) by closed.
  assert (B12 : 0 < ord (dec 12 10) < 2 ^ 151) by (vm_compute; split; reflexivity).
  assert (P200 : 2 ^ 152 < 2 ^ 200) by closed.
  destruct (add_small (neg (dec 12 10)) p F12 Fp ltac:(lia)) as [Fx Ox].
  split; [exact Fx|]. rewrite Ox. unfold x_of, D6. rewrite Op, Oq, Or. reflexivity.
Qed.

(** X4: for a finite adjusted time that is not negative the branch
    [if (x > 1.2f) x = -1.2f] is never taken: the horizontal position is the
    value computed before the guard. *)
Theorem guard_never_fires (adjustedTime : float) :
  fin adjustedTime -> (adjustedTime <! of_int 0) = false ->
  Main.horizontal adjustedTime = unguarded adjustedTime.
Proof.
  intros Fa S.
  assert (F0 : fin (of_int 0)) by fin_const.
  rewrite (ltb_fin _ _ Fa F0) in S. apply Z.ltb_ge in S. change (ord (of_int 0)) with 0 in S.
  destruct (unguarded_spec _ Fa S) as [Fx Ox].
  pose proof (x_of_range _ S) as R. rewrite <- Ox in R.
  unfold Main.horizontal. fold (unguarded adjustedTime).
  assert (Fu : fin (dec 12 10)) by fin_const.
  change (unguarded adjustedTime >! dec 12 10) with (dec 12 10 <! unguarded adjustedTime).
  rewrite (ltb_fin _ _ Fu Fx).
  replace (ord (dec 12 10) <? ord (unguarded adjustedTime)) with false
    by (symmetry; apply Z.ltb_ge; lia).
  reflexivity.
Qed.

(** ** The start of a cycle *)

Lemma fin_ord_zero (x : float) : fin x -> ord x = 0 -> exists s, x = S754_zero s.
Proof.
  intros Fx H. destruct (fin_cases x Fx) as [[s ->]|(s & m & e & -> & V)]; [eauto|].
  destruct (ord_sign _ _ _ V) as [A B]. destruct s; [specialize (A eq_refl)|specialize (B eq_refl)]; lia.
Qed.

Section CycleStart.

Variable sin : float -> float.

(** X5: for a finite time and a rectangle index 0..3, when the rectangle has
    started and its adjusted time is a whole number of cycles ([fmod] gives
    zero), the position returned is (-1.2f, 0.2f, 0): each cycle starts
    where the rectangle was parked, with no jump. *)
Theorem cycle_start_position (rect : Rectangle) (time : float) (rectIndex : Z) :
  fin time -> 0 <= rectIndex < 4 ->
  (Main.adjustedTime0 time rectIndex <! of_int 0) = false ->
  eqb (fmod (Main.adjustedTime0 time rectIndex) Main.cycleTime) (of_int 0) = true ->
  Main.updateMovingRectanglePosition sin rect time rectIndex
    = Vec3 (neg (dec 12 10)) (dec 2 10) (of_int 0).
Proof.
  intros Ft Hi S Z.
  unfold Main.updateMovingRectanglePosition. rewrite S.
  destruct (delay_exact rectIndex Hi) as [Fc Oc].
  unfold Main.adjustedTime0 in *.
  set (c := of_int rectIndex *! Main.delayBetweenRectangles) in *.
  destruct (adjusted_spec time c Ft Fc ltac:(lia) S) as (Fa & Oa & N).
  assert (Ha : 0 <= ord (time -! c)).
  { rewrite Oa. change 0 with (srnd 0). apply srnd_mono. lia. }
  assert (F6 : fin Main.cycleTime) by fin_const.
  assert (H6 : 0 < ord Main.cycleTime) by closed.
  destruct (fmod_ord (time -! c) Main.cycleTime Fa F6 Ha H6) as (Fr & Or & _).
  assert (F0 : fin (of_int 0)) by fin_const.
  unfold eqb, SFeqb in Z.
  rewrite (compare_ord _ _ (proj1 Fr) (proj1 F0) (proj2 Fr) (proj2 F0)) in Z.
  change (ord (of_int 0)) with 0 in Z.
  destruct (Z.compare_spec (ord (fmod (time -! c) Main.cycleTime)) 0) as [E|E|E];
    try discriminate Z.
  destruct (fin_ord_zero _ Fr E) as [s Hs].
  assert (X : Main.horizontal (time -! c) = neg (dec 12 10)).
  { unfold Main.horizontal. rewrite Hs. destruct s; closed. }
  rewrite X, jumpLoop_find.
  replace (find (near (neg (dec 12 10))) Main.stationaryPositions) with (@None float) by closed.
  reflexivity.
Qed.

End CycleStart.

(** ** The jump zones *)

Lemma rounds_to_ord (R : float) (s : bool) (z : Z) :
  rounds_to R s z -> is_finite R = true -> ord R = cond_Zopp s z.
Proof.
  intros [_ [[Z0 ->]|[[Hz (m & e & -> & Hm)]|[Hz ->]]]] F; try discriminate F.
  - subst z. destruct s; reflexivity.
  - rewrite ord_finite. unfold mag. rewrite Hm. reflexivity.
Qed.

(** A finite difference is the rounded exact difference. *)
Lemma sub_fin_ord (x y : float) :
  fin x -> fin y -> is_finite (x -! y) = true -> ord (x -! y) = srnd (ord x - ord y).
Proof.
  intros Fx Fy F.
  destruct (fin_cases x Fx) as [[sx ->]|(sx & mx & ex & -> & Vx)];
  destruct (fin_cases y Fy) as [[sy ->]|(sy & my & ey & -> & Vy)].
  - destruct sx, sy; reflexivity.
  - change (S754_zero sx -! S754_finite sy my ey) with (S754_finite (negb sy) my ey).
    change (ord (S754_zero sx)) with 0. rewrite Z.sub_0_l, srnd_opp.
    rewrite (srnd_exact _ Vy). rewrite !ord_finite. destruct sy; unfold cond_Zopp, negb; lia.
  - change (S754_finite sx mx ex -! S754_zero sy) with (S754_finite sx mx ex).
    change (ord (S754_zero sy)) with 0. rewrite Z.sub_0_r. symmetry. apply srnd_exact. exact Vx.
  - pose proof (sub_finite_spec sx sy mx my ex ey Vx Vy) as S.
    unfold srounds_to in S.
    destruct (Z.compare_spec (ord (S754_finite sx mx ex) - ord (S754_finite sy my ey)) 0)
      as [E|E|E].
    + rewrite S, E. reflexivity.
    + rewrite (rounds_to_ord _ _ _ S F). rewrite srnd_neg_eq by lia. reflexivity.
    + rewrite (rounds_to_ord _ _ _ S F). rewrite srnd_nonneg_eq by lia. reflexivity.
Qed.

Lemma srnd_lt_inv (N B : Z) :
  0 <= B -> srnd B = B -> Z.abs (srnd N) < B -> Z.abs N < B.
Proof.
  intros HB EB H.
  destruct (Z_lt_le_dec (Z.abs N) B) as [L|G]; [exact L|exfalso].
  destruct (Z_le_gt_dec 0 N) as [P|P].
  - pose proof (srnd_mono B N ltac:(lia)). lia.
  - pose proof (srnd_mono N (- B) ltac:(lia)) as M. rewrite srnd_opp, EB in M. lia.
Qed.

(** When the test of the loop succeeds, [x] is finite and its exact distance
    to the obstacle is below the jump radius. *)
Lemma near_exact (x stationaryX : float) :
  valid x = true -> fin stationaryX -> near x stationaryX = true ->
  fin x /\ Z.abs (ord x - ord stationaryX) < ord Main.jumpRadius.
Proof.
  intros Vx Fs N. destruct (near_fin x stationaryX Vx Fs N) as (Fd & Hd).
  assert (Fx : fin x).
  { split; [exact Vx|]. destruct Fd as [_ Fd].
    destruct (fin_cases _ Fs) as [[ss ->]|(ss & ms & es & -> & _)];
      destruct x as [s|[|]| |s m e]; try reflexivity; discriminate Fd. }
  split; [exact Fx|].
  assert (FR : is_finite (x -! stationaryX) = true).
  { destruct Fd as [_ Fd]. destruct (x -! stationaryX); try reflexivity; discriminate Fd. }
  assert (VR : valid (x -! stationaryX) = true) by (apply valid_sub; [exact Vx|apply Fs]).
  destruct (fabs_ord _ (conj VR FR)) as [_ Oa]. rewrite Oa in Hd.
  rewrite (sub_fin_ord x stationaryX Fx Fs FR) in Hd.
  apply srnd_lt_inv; [vm_compute; discriminate|closed|lia].
Qed.

(** First match in a list that holds at most one match does not depend on the
    order of the list. *)
Lemma find_unique_perm {A : Type} (f : A -> bool) (l l' : list A) :
  Permutation l l' ->
  (forall a b, In a l -> In b l -> f a = true -> f b = true -> a = b) ->
  find f l = find f l'.
Proof.
  induction 1 as [|x l l' P IH|x y l|l l' l'' P1 IH1 P2 IH2]; intros U.
  - reflexivity.
  - simpl. destruct (f x); [reflexivity|].
    apply IH. intros a b Ia Ib. apply U; right; assumption.
  - simpl. destruct (f y) eqn:Fy, (f x) eqn:Fx; try reflexivity.
    f_equal. apply U; simpl; auto.
  - rewrite (IH1 U). apply IH2. intros a b Ia Ib.
    apply U; apply (Permutation_in _ (Permutation_sym P1)); assumption.
Qed.

Section JumpZones.

Variable sin : float -> float.

(** Two obstacles whose test succeeds for the same [x] are the same obstacle:
    they are 0.45 apart and the radius is 0.12. *)
Lemma near_unique (x a b : float) :
  valid x = true ->
  In a Main.stationaryPositions -> In b Main.stationaryPositions ->
  near x a = true -> near x b = true -> a = b.
Proof.
  intros Vx Ia Ib Na Nb.
  destruct (near_exact x a Vx (stationaryPositions_fin a Ia) Na) as [_ Ha].
  destruct (near_exact x b Vx (stationaryPositions_fin b Ib) Nb) as [_ Hb].
  assert (R : 0 < ord Main.jumpRadius) by closed.
  assert (G01 : ord (neg (dec 7 10)) + 2 * ord Main.jumpRadius <= ord (neg (dec 25 100)))
    by (vm_compute; discriminate).
  assert (G12 : ord (neg (dec 25 100)) + 2 * ord Main.jumpRadius <= ord (dec 2 10))
    by (vm_compute; discriminate).
  assert (G23 : ord (dec 2 10) + 2 * ord Main.jumpRadius <= ord (dec 65 100))
    by (vm_compute; discriminate).
  unfold Main.stationaryPositions in Ia, Ib. cbn [In] in Ia, Ib.
  destruct Ia as [<-|[<-|[<-|[<-|[]]]]]; destruct Ib as [<-|[<-|[<-|[<-|[]]]]];
    try reflexivity; exfalso; lia.
Qed.

Lemma filter_unique {A : Type} (f : A -> bool) (l : list A) :
  (forall a b, In a l -> In b l -> f a = true -> f b = true -> a = b) ->
  NoDup l -> (length (filter f l) <= 1)%nat.
Proof.
  induction l as [|x l IH]; intros U D; simpl; [lia|].
  inversion D as [|? ? Nx Dl]; subst.
  assert (IHl : (length (filter f l) <= 1)%nat).
  { apply IH; [|exact Dl]. intros a b Ia Ib. apply U; right; assumption. }
  destruct (f x) eqn:Fx; [|exact IHl].
  destruct (filter f l) as [|z t] eqn:E; simpl; [lia|].
  exfalso. assert (I : In z (filter f l)) by (rewrite E; left; reflexivity).
  apply filter_In in I. destruct I as [Iz Fz].
  apply Nx. rewrite (U x z); simpl; auto.
Qed.

(** X6: for every [x] other than NaN at most one of the four obstacle
    positions passes the test [fabs(x - stationaryX) < jumpRadius] of the
    jump loop: the jump zones do not overlap. *)
Theorem jump_zones_disjoint (x : float) :
  valid x = true -> (length (filter (near x) Main.stationaryPositions) <= 1)%nat.
Proof.
  intros Vx. apply filter_unique.
  - intros a b. apply near_unique. exact Vx.
  - unfold Main.stationaryPositions.
    repeat constructor; cbn [In]; intros H;
      repeat (destruct H as [H|H]; [discriminate H|]); exact H.
Qed.

(** X7: for every [x] other than NaN the jump loop gives the same height
    over any reordering of the four obstacle positions: which match comes
    first does not matter, since there is at most one. *)
Theorem jumpLoop_order_irrelevant (x y : float) (positions : list float) :
  valid x = true -> Permutation Main.stationaryPositions positions ->
  Main.jumpLoop sin x y positions = Main.jumpLoop sin x y Main.stationaryPositions.
Proof.
  intros Vx P. rewrite !jumpLoop_find.
  rewrite <- (find_unique_perm (near x) _ _ P); [reflexivity|].
  intros a b. apply near_unique. exact Vx.
Qed.

End JumpZones.

(** ** The drawing loop *)

Section DrawingLoop.

Variable sin : float -> float.

(** The loop with its mutable index is the recursion [drawFrom]. *)
Lemma fold_drawStep (time : float) (rectangles : list Rectangle) :
  forall (k : Z) (calls : list Render.DrawCall),
  snd (fold_left (Render.drawStep sin time) rectangles (k, calls))
    = calls ++ Render.drawFrom sin time k rectangles.
Proof.
  induction rectangles as [|r rest IH]; intros k calls; simpl.
  - rewrite app_nil_r. reflexivity.
  - unfold push_back. destruct (isStationary r); simpl; rewrite IH, <- app_assoc; reflexivity.
Qed.

Lemma moving_before_S (n : nat) (r : Rectangle) (rest : list Rectangle) :
  moving_before (S n) (r :: rest)
    = (if isStationary r then 0 else 1) + moving_before n rest.
Proof.
  unfold moving_before. simpl firstn. simpl filter.
  destruct (isStationary r); simpl negb; cbv iota; [reflexivity|].
  simpl length. lia.
Qed.

Lemma drawFrom_nth (time : float) (rectangles : list Rectangle) :
  forall (k : Z) (n : nat),
  nth_error (Render.drawFrom sin time k rectangles) n
    = option_map
        (fun rect =>
           Render.mkDrawCall
             (if isStationary rect then position rect
              else Main.updateMovingRectanglePosition sin rect time
                     (k + moving_before n rectangles))
             (color rect))
        (nth_error rectangles n).
Proof.
  induction rectangles as [|r rest IH]; intros k n.
  - destruct n; reflexivity.
  - destruct n as [|n].
    + simpl. unfold moving_before. simpl. rewrite Z.add_0_r.
      destruct (isStationary r); reflexivity.
    + rewrite moving_before_S. simpl nth_error at 2. simpl Render.drawFrom.
      destruct (isStationary r); simpl nth_error; rewrite IH.
      * reflexivity.
      * replace (k + 1 + moving_before n rest) with (k + (1 + moving_before n rest)) by lia.
        reflexivity.
Qed.

(** X8: for every list of rectangles the drawing loop issues one draw call
    per rectangle, in the order of the list and with the rectangle's own
    colour; a stationary rectangle is drawn at its stored position, a moving
    one at the position the evaluator gives for the index that counts the
    moving rectangles before it in the list. *)
Theorem drawRectangles_nth (rectangles : list Rectangle) (time : float) (n : nat) :
  nth_error (Render.drawRectangles sin rectangles time) n
    = option_map
        (fun rect =>
           Render.mkDrawCall
             (if isStationary rect then position rect
              else Main.updateMovingRectanglePosition sin rect time
                     (moving_before n rectangles))
             (color rect))
        (nth_error rectangles n).
Proof.
  unfold Render.drawRectangles. cbv zeta. rewrite fold_drawStep, app_nil_l.
  rewrite drawFrom_nth. reflexivity.
Qed.

(** X9: in the scene of [generateRectangles], for every time other than
    NaN, the rectangle at place [n] is drawn at the position stored in it
    when it is stationary or when [time] is below its delay
    [(n - 4) * 1.5f]. *)
Theorem scene_drawn_at_stored_position (time : float) (n : nat) (rect : Rectangle) :
  valid time = true ->
  nth_error Main.generateRectangles n = Some rect ->
  isStationary rect = true
  \/ (time <! of_int (Z.of_nat n - 4) *! Main.delayBetweenRectangles) = true ->
  nth_error (Render.drawRectangles sin Main.generateRectangles time) n
    = Some (Render.mkDrawCall (position rect) (color rect)).
Proof.
  intros Vt Hn H.
  unfold Render.drawRectangles. cbv zeta. rewrite fold_drawStep, app_nil_l.
  rewrite drawFrom_nth, Hn. simpl option_map. do 2 f_equal.
  destruct (isStationary rect) eqn:St; [reflexivity|].
  destruct H as [H|H]; [discriminate H|].
  assert (Hk : moving_before n Main.generateRectangles = Z.of_nat n - 4
               /\ position rect = Vec3 (neg (dec 12 10)) (dec 2 10) (of_int 0)).
  { do 8 (destruct n as [|n]; [vm_compute in Hn; injection Hn as <-;
                               first [discriminate St|split; closed]|]).
    destruct n; discriminate Hn. }
  destruct Hk as [-> ->].
  unfold Main.updateMovingRectanglePosition, Main.adjustedTime0.
  rewrite sub_negative; [reflexivity|exact Vt| |exact H].
  apply valid_mul; [apply valid_of_int|reflexivity].
Qed.

End DrawingLoop.

(** ** The background colour *)

(** Multiplication of a nonnegative number by a number of either sign. *)
Lemma mul_ord_signed (c s : float) :
  fin c -> fin s -> 0 <= ord c ->
  rnd (ord c * Z.abs (ord s)) (2 ^ 149) < 2 ^ 277 ->
  fin (c *! s) /\ ord (c *! s) = Z.sgn (ord s) * rnd (ord c * Z.abs (ord s)) (2 ^ 149).
Proof.
  intros Fc Fs Hc B.
  destruct (fin_cases c Fc) as [[sc ->]|(sc & mc & ec & -> & Vc)];
  destruct (fin_cases s Fs) as [[ss ->]|(ss & ms & es & -> & Vs)].
  - split; [split; reflexivity|]. reflexivity.
  - split; [split; reflexivity|]. change (ord (S754_zero sc)) with 0.
    rewrite Z.mul_0_l, rnd_0 by lia. rewrite Z.mul_0_r. reflexivity.
  - split; [split; reflexivity|]. reflexivity.
  - destruct (ord_sign _ _ _ Vc) as [Sc _].
    destruct sc; [specialize (Sc eq_refl); lia|]. clear Sc.
    destruct (valid_bounds _ _ _ Vs) as (Es & _).
    pose proof (mag_pos ms es ltac:(lia)) as Ms.
    assert (As : Z.abs (ord (S754_finite ss ms es)) = mag ms es)
      by (rewrite ord_finite; destruct ss; unfold cond_Zopp; lia).
    rewrite As in *.
    pose proof (mul_finite_spec false ss mc ms ec es Vc Vs) as S.
    change (ord (S754_finite false mc ec)) with (mag mc ec) in *.
    destruct (rounds_to_finite _ _ _ S B) as (F & O & _).
    split; [split; [exact (rounds_to_valid _ _ _ S)|exact F]|].
    rewrite O. change (xorb false ss) with ss.
    rewrite ord_finite. destruct ss; unfold cond_Zopp.
    + rewrite Z.sgn_neg by lia. lia.
    + rewrite Z.sgn_pos by lia. lia.
Qed.

(** One component [base + 0.35f * (0.5f + 0.5f * s)] for a sine value [s]
    between -1 and 1. *)
Lemma colour_component (base s : float) :
  fin base -> 0 <= ord base < 2 ^ 199 ->
  fin s -> Z.abs (ord s) <= ord (of_int 1) ->
  let c := base +! dec 35 100 *! (dec 5 10 +! dec 5 10 *! s) in
  fin c /\ ord base <= ord c <= ord (base +! dec 35 100).
Proof.
  intros Fb Hb Fs Hs c. subst c.
  assert (F5 : fin (dec 5 10)) by fin_const.
  assert (H5 : 0 < ord (dec 5 10) < 2 ^ 199) by (vm_compute; split; reflexivity).
  assert (F35 : fin (dec 35 100)) by fin_const.
  assert (H35 : 0 <= ord (dec 35 100) < 2 ^ 199) by (vm_compute; split; [discriminate|reflexivity]).
  assert (F1 : fin (of_int 1)) by fin_const.
  assert (P200 : 2 ^ 199 + 2 ^ 199 = 2 ^ 200) by closed.
  assert (P277 : 2 ^ 199 < 2 ^ 277) by closed.
  assert (M : rnd (ord (dec 5 10) * Z.abs (ord s)) (2 ^ 149) <= ord (dec 5 10)).
  { apply Z.le_trans with (rnd (ord (dec 5 10) * ord (of_int 1)) (2 ^ 149));
      [apply rnd_mono; [nia|lia]|vm_compute; discriminate]. }
  pose proof (rnd_nonneg (ord (dec 5 10) * Z.abs (ord s)) (2 ^ 149) ltac:(nia) ltac:(lia)) as M0.
  destruct (mul_ord_signed (dec 5 10) s F5 Fs ltac:(lia) ltac:(lia)) as [Fh Oh].
  set (h := dec 5 10 *! s) in *.
  assert (Hh : Z.abs (ord h) <= ord (dec 5 10)).
  { rewrite Oh. destruct (Z.sgn_spec (ord s)) as [[_ ->]|[[_ ->]|[_ ->]]]; lia. }
  destruct (add_small (dec 5 10) h F5 Fh ltac:(lia)) as [Fu Ou].
  set (u := dec 5 10 +! h) in *.
  assert (Hu : 0 <= ord u <= ord (of_int 1)).
  { rewrite Ou. split.
    - change 0 with (srnd 0). apply srnd_mono. lia.
    - apply Z.le_trans with (srnd (ord (dec 5 10) + ord (dec 5 10)));
        [apply srnd_mono; lia|vm_compute; discriminate]. }
  destruct (mul_mono_r (dec 35 100) u (of_int 1) F35 Fu F1 ltac:(lia) Hu ltac:(closed))
    as (Fv & Hv).
  replace (rnd (ord (dec 35 100) * ord (of_int 1)) (2 ^ 149)) with (ord (dec 35 100))
    in Hv by closed.
  set (v := dec 35 100 *! u) in *.
  destruct (add_small base v Fb Fv ltac:(lia)) as [Fc Oc].
  destruct (add_small base (dec 35 100) Fb F35 ltac:(lia)) as [_ Ot].
  split; [exact Fc|]. rewrite Oc, Ot. split.
  - rewrite <- (srnd_exact base (fin_valid _ Fb)) at 1. apply srnd_mono. lia.
  - apply srnd_mono. lia.
Qed.

(** The time of a frame, scaled and shifted, stays finite. *)
Lemma phase_fin (time k ph : float) :
  fin time -> 0 <= ord time ->
  fin k -> 0 <= ord k <= ord (of_int 1) ->
  fin ph -> 0 <= ord ph <= ord (of_int 4) ->
  fin (time *! k) /\ fin (time *! k +! ph).
Proof.
  intros Ft Ht Fk Hk Fp Hp.
  pose proof (ord_bound time (fin_valid _ Ft)) as Bt. rewrite Z.abs_eq in Bt by lia.
  assert (V : valid (S754_finite false 16777215 104) = true) by reflexivity.
  assert (Bt' : ord time <= ord (S754_finite false 16777215 104)).
  { destruct (fin_cases time Ft) as [[s ->]|(s & m & e & -> & Vm)].
    - vm_compute. discriminate.
    - destruct (valid_bounds _ _ _ Vm) as (E & M & _).
      rewrite !ord_finite in *. destruct s; unfold cond_Zopp in *.
      + pose proof (mag_pos m e ltac:(lia)). lia.
      + unfold mag.
        assert (2 ^ (e - emin32) <= 2 ^ (104 - emin32)) by (apply pow2_le; lia).
        pose proof (pow2_pos (e - emin32) ltac:(lia)).
        change (Zpos 16777215) with (2 ^ 24 - 1). nia. }
  set (big := S754_finite false 16777215 104) in *.
  assert (Fbig : fin big) by fin_const.
  assert (F1 : fin (of_int 1)) by fin_const.
  assert (Hbig : 0 <= ord big) by (vm_compute; discriminate).
  assert (M1 : rnd (ord time * ord k) (2 ^ 149) <= ord big).
  { apply Z.le_trans with (rnd (ord big * ord (of_int 1)) (2 ^ 149));
      [|vm_compute; discriminate].
    apply rnd_mono; [|lia]. split; [nia|].
    apply Z.mul_le_mono_nonneg; lia. }
  assert (Lb : ord big < 2 ^ 277) by closed.
  destruct (mul_ord time k Ft Fk Ht ltac:(lia) ltac:(lia)) as [Fm Om].
  split; [exact Fm|].
  assert (Hm : 0 <= ord (time *! k) <= ord big).
  { rewrite Om. split; [apply rnd_nonneg; [nia|lia]|exact M1]. }
  assert (B : rnd (Z.abs (ord (time *! k) + ord ph)) 1 < 2 ^ 277).
  { rewrite Z.abs_eq by lia.
    apply Z.le_lt_trans with (rnd (ord big + ord (of_int 4)) 1);
      [apply rnd_mono; lia|closed]. }
  exact (proj1 (add_ord _ _ Fm Fp B)).
Qed.

Section Background.

Variable sin : float -> float.

(** The library sine of a finite number lies between -1 and 1. *)
Hypothesis sin_unit :
  forall a : float,
    valid a = true -> is_finite a = true ->
    valid (sin a) = true /\ leb (neg (of_int 1)) (sin a) = true /\ leb (sin a) (of_int 1) = true.

Lemma sin_unit_ord (a : float) :
  fin a -> fin (sin a) /\ Z.abs (ord (sin a)) <= ord (of_int 1).
Proof.
  intros [Va Fa]. destruct (sin_unit a Va Fa) as (V & L0 & L1).
  assert (Fm : fin (neg (of_int 1))) by fin_const.
  assert (F1 : fin (of_int 1)) by fin_const.
  assert (Fs : fin (sin a)).
  { split; [exact V|]. destruct (sin a) as [s|[|]| |s m e]; try reflexivity; discriminate. }
  rewrite (leb_fin _ _ Fm Fs) in L0. rewrite (leb_fin _ _ Fs F1) in L1.
  apply Z.leb_le in L0. apply Z.leb_le in L1.
  assert (E : ord (neg (of_int 1)) = - ord (of_int 1)) by closed.
  split; [exact Fs|lia].
Qed.

(** X10: for a finite time that is not negative, and a sine that maps
    finite numbers into [-1, 1], each component of the background colour
    lies between its base (0.15f, 0.12f, 0.2f) and its base plus 0.35f. *)
Theorem backgroundColor_range (time : float) :
  fin time -> leb (of_int 0) time = true ->
  let bg := Render.backgroundColor sin time in
  (leb (dec 15 100) (vx bg) = true /\ leb (vx bg) (dec 15 100 +! dec 35 100) = true) /\
  (leb (dec 12 100) (vy bg) = true /\ leb (vy bg) (dec 12 100 +! dec 35 100) = true) /\
  (leb (dec 2 10) (vz bg) = true /\ leb (vz bg) (dec 2 10 +! dec 35 100) = true).
Proof.
  intros Ft L bg. subst bg.
  assert (F0 : fin (of_int 0)) by fin_const.
  rewrite (leb_fin _ _ F0 Ft) in L. apply Z.leb_le in L. change (ord (of_int 0)) with 0 in L.
  assert (G : forall base k ph,
             fin base -> 0 <= ord base < 2 ^ 199 -> fin (base +! dec 35 100) ->
             fin k -> 0 <= ord k <= ord (of_int 1) -> fin ph -> 0 <= ord ph <= ord (of_int 4) ->
             (leb base (base +! dec 35 100 *! (dec 5 10 +! dec 5 10 *! sin (time *! k))) = true /\
              leb (base +! dec 35 100 *! (dec 5 10 +! dec 5 10 *! sin (time *! k)))
                  (base +! dec 35 100) = true) /\
             (leb base (base +! dec 35 100 *! (dec 5 10 +! dec 5 10 *! sin (time *! k +! ph))) = true /\
              leb (base +! dec 35 100 *! (dec 5 10 +! dec 5 10 *! sin (time *! k +! ph)))
                  (base +! dec 35 100) = true)).
  { intros base k ph Fb Hb Ftop Fk Hk Fp Hp.
    destruct (phase_fin time k ph Ft L Fk Hk Fp Hp) as [A1 A2].
    destruct (sin_unit_ord _ A1) as [S1 B1]. destruct (sin_unit_ord _ A2) as [S2 B2].
    destruct (colour_component base _ Fb Hb S1 B1) as [C1 R1].
    destruct (colour_component base _ Fb Hb S2 B2) as [C2 R2].
    rewrite (leb_fin _ _ Fb C1), (leb_fin _ _ C1 Ftop), (leb_fin _ _ Fb C2), (leb_fin _ _ C2 Ftop).
    repeat split; apply Z.leb_le; lia. }
  unfold Render.backgroundColor. cbn [vx vy vz].
  split; [|split].
  - apply (G (dec 15 100) (dec 5 10) (of_int 0)); try fin_const;
      vm_compute; split; first [discriminate|reflexivity].
  - apply (G (dec 12 100) (dec 7 10) (of_int 2)); try fin_const;
      vm_compute; split; first [discriminate|reflexivity].
  - apply (G (dec 2 10) (dec 9 10) (of_int 4)); try fin_const;
      vm_compute; split; first [discriminate|reflexivity].
Qed.

End Background.

Example background_bounds :
  leb (of_int 0) (dec 12 100) = true /\
  dec 15 100 +! dec 35 100 = dec 5 10 /\
  leb (dec 12 100 +! dec 35 100) (dec 5 10) = true /\
  leb (dec 2 10 +! dec 35 100) (of_int 1) = true.
Proof. repeat split; closed. Qed.

(** ** The vertex template *)

(** From 2^-125 on, the exact value is an even multiple of 2^-149. *)
Lemma ord_even (x : float) :
  fin x -> leb two_pow_m125 x = true -> 0 < ord x /\ Z.even (ord x) = true.
Proof.
  intros Fx L.
  assert (F2 : fin two_pow_m125) by fin_const.
  rewrite (leb_fin _ _ F2 Fx) in L. apply Z.leb_le in L.
  change (ord two_pow_m125) with (2 ^ 24) in L.
  split; [lia|].
  destruct (fin_cases x Fx) as [[s ->]|(s & m & e & -> & V)]; [simpl in L; lia|].
  destruct (valid_bounds _ _ _ V) as (E & M & _).
  rewrite ord_finite in *. destruct s; unfold cond_Zopp in *.
  - pose proof (mag_pos m e ltac:(lia)). lia.
  - unfold mag in *.
    assert (e <> emin32).
    { intros ->. rewrite Z.sub_diag in L. change (2 ^ 0) with 1 in L. lia. }
    replace (e - emin32) with (1 + (e - emin32 - 1)) by lia.
    rewrite pow2_split by lia. change (2 ^ 1) with 2.
    replace (Zpos m * (2 * 2 ^ (e - emin32 - 1))) with (2 * (Zpos m * 2 ^ (e - emin32 - 1)))
      by lia.
    apply Z.even_spec. exists (Zpos m * 2 ^ (e - emin32 - 1)). reflexivity.
Qed.

(** Halving such a number is exact. *)
Lemma half_exact (x : float) :
  fin x -> leb two_pow_m125 x = true ->
  fin (x /! of_int 2) /\ 2 * ord (x /! of_int 2) = ord x.
Proof.
  intros Fx L. destruct (ord_even x Fx L) as [P Ev].
  apply Z.even_spec in Ev. destruct Ev as [h Eh].
  assert (F2 : fin (of_int 2)) by fin_const.
  assert (O2 : ord (of_int 2) = 2 * 2 ^ 149) by closed.
  assert (R : rnd (ord x * 2 ^ 149) (ord (of_int 2)) = h).
  { rewrite O2, Eh.
    replace (2 * h * 2 ^ 149) with (h * (2 * 2 ^ 149)) by lia.
    rewrite <- (Z.mul_1_l (2 * 2 ^ 149)) at 2.
    rewrite rnd_scale by (try lia; closed).
    destruct (fin_cases x Fx) as [[s ->]|(s & m & e & -> & V)]; [simpl in P; lia|].
    destruct (valid_bounds _ _ _ V) as (E & M & _).
    destruct (ord_sign _ _ _ V) as [Sn _].
    destruct s; [specialize (Sn eq_refl); lia|].
    rewrite ord_finite in Eh. unfold cond_Zopp, mag in Eh.
    destruct (Z.eq_dec e emin32) as [->|Ne].
    - rewrite Z.sub_diag in Eh. change (2 ^ 0) with 1 in Eh.
      replace h with (h * 2 ^ 0) by (change (2 ^ 0) with 1; lia).
      apply rnd_exact_gen; lia.
    - replace (e - emin32) with (1 + (e - emin32 - 1)) in Eh by lia.
      rewrite pow2_split in Eh by lia. change (2 ^ 1) with 2 in Eh.
      assert (h = Zpos m * 2 ^ (e - emin32 - 1)) by lia. subst h.
      apply rnd_exact_gen; lia. }
  pose proof (ord_bound x (fin_valid _ Fx)) as B. rewrite Z.abs_eq in B by lia.
  destruct (div_ord x (of_int 2) Fx F2 ltac:(lia) ltac:(rewrite O2; closed) ltac:(lia))
    as [F O].
  split; [exact F|]. rewrite O, R. lia.
Qed.

Lemma signbit_pos (x : float) : fin x -> 0 < ord x -> signbit x = false.
Proof.
  intros Fx P.
  destruct (fin_cases x Fx) as [[s ->]|(s & m & e & -> & V)]; [simpl in P; lia|].
  destruct (ord_sign _ _ _ V) as [A _].
  destruct s; [specialize (A eq_refl); lia|reflexivity].
Qed.

Lemma neg_ord (w : float) : ord (neg w) = - ord w.
Proof.
  destruct w as [s|s| |s m e]; try reflexivity.
  change (neg (S754_finite s m e)) with (S754_finite (negb s) m e).
  rewrite !ord_finite. destruct s; cbn [negb cond_Zopp]; lia.
Qed.

Lemma neg_fin (w : float) : fin w -> fin (neg w).
Proof.
  intros [V F]. split; [apply valid_neg; exact V|].
  destruct w; try discriminate F; reflexivity.
Qed.

(** X11: for finite [width] and [height] of at least 2^-125 the template
    has 6 vertices, and its right edge minus its left edge is exactly
    [width], its top edge minus its bottom edge exactly [height]: halving
    loses nothing. *)
Theorem generateRectangle_extent (width height : float) :
  fin width -> fin height ->
  leb two_pow_m125 width = true -> leb two_pow_m125 height = true ->
  let v := Render.vertices (Render.generateRectangle width height) in
  Render.vertexCount (Render.generateRectangle width height) = 6 /\
  nth 3 v S754_nan -! nth 0 v S754_nan = width /\
  nth 7 v S754_nan -! nth 1 v S754_nan = height.
Proof.
  intros Fw Fh Lw Lh v. subst v.
  split; [reflexivity|].
  assert (G : forall x, fin x -> leb two_pow_m125 x = true ->
                        x /! of_int 2 -! neg (x /! of_int 2) = x).
  { intros x Fx L. destruct (half_exact x Fx L) as [F H].
    destruct (ord_even x Fx L) as [P _].
    set (w := x /! of_int 2) in *.
    assert (Fn : fin (neg w)) by (apply neg_fin; exact F).
    assert (On : ord (neg w) = - ord w) by apply neg_ord.
    pose proof (ord_bound x (fin_valid _ Fx)) as B. rewrite Z.abs_eq in B by lia.
    assert (E : ord w - ord (neg w) = ord x) by lia.
    assert (Bd : rnd (Z.abs (ord w - ord (neg w))) 1 < 2 ^ 277).
    { rewrite E, Z.abs_eq by lia. rewrite <- srnd_nonneg_eq by lia.
      rewrite (srnd_exact x (fin_valid _ Fx)). exact B. }
    destruct (sub_ord w (neg w) F Fn Bd) as [Fd Od].
    rewrite E, (srnd_exact x (fin_valid _ Fx)) in Od.
    apply float_eq; try apply Fd; try apply Fx; [exact Od|].
    rewrite (signbit_pos _ Fd) by lia. rewrite (signbit_pos _ Fx) by lia.
    reflexivity. }
  unfold Render.generateRectangle. cbn [Render.vertices app nth].
  split; apply G; assumption.
Qed.

(** ** The theorems of this part at concrete inputs *)

Lemma parked_iff_before_delay_witness :
  fin (of_int 1) /\ 0 <= 2 < 4 /\
  (Main.adjustedTime0 (of_int 1) 2 <! of_int 0)
    = (of_int 1 <! of_int 2 *! Main.delayBetweenRectangles).
Proof.
  assert (F : fin (of_int 1)) by fin_const.
  split; [exact F|]. split; [lia|].
  apply (parked_iff_before_delay (of_int 1) 2); [exact F|lia].
Defined.

Lemma horizontal_range_witness :
  fin (of_int 1) /\ 0 <= 0 < 4 /\
  leb (neg (dec 12 10))
      (vx (Main.updateMovingRectanglePosition sin_id rect0 (of_int 1) 0)) = true /\
  leb (vx (Main.updateMovingRectanglePosition sin_id rect0 (of_int 1) 0))
      (dec 12 10) = true.
Proof.
  assert (F : fin (of_int 1)) by fin_const.
  split; [exact F|]. split; [lia|].
  apply (horizontal_range sin_id rect0 (of_int 1) 0); [exact F|lia].
Defined.

Lemma guard_never_fires_witness :
  fin (of_int 3) /\ (of_int 3 <! of_int 0) = false /\
  Main.horizontal (of_int 3) = unguarded (of_int 3).
Proof.
  assert (F : fin (of_int 3)) by fin_const.
  split; [exact F|]. split; [reflexivity|].
  apply (guard_never_fires (of_int 3)); [exact F|reflexivity].
Defined.

Lemma cycle_start_position_witness :
  fin (dec 75 10) /\ 0 <= 1 < 4 /\
  (Main.adjustedTime0 (dec 75 10) 1 <! of_int 0) = false /\
  eqb (fmod (Main.adjustedTime0 (dec 75 10) 1) Main.cycleTime) (of_int 0) = true /\
  Main.updateMovingRectanglePosition sin_id rect0 (dec 75 10) 1
    = Vec3 (neg (dec 12 10)) (dec 2 10) (of_int 0).
Proof.
  assert (F : fin (dec 75 10)) by fin_const.
  split; [exact F|]. split; [lia|]. split; [reflexivity|]. split; [reflexivity|].
  apply (cycle_start_position sin_id rect0 (dec 75 10) 1); [exact F|lia|reflexivity|reflexivity].
Defined.

Lemma jump_zones_disjoint_witness :
  valid (dec 2 10) = true /\
  (length (filter (near (dec 2 10)) Main.stationaryPositions) <= 1)%nat.
Proof.
  split; [reflexivity|].
  apply (jump_zones_disjoint (dec 2 10)); reflexivity.
Defined.

Lemma jumpLoop_order_irrelevant_witness :
  valid (dec 2 10) = true /\
  Permutation Main.stationaryPositions (rev Main.stationaryPositions) /\
  Main.jumpLoop sin_id (dec 2 10) Main.baseY (rev Main.stationaryPositions)
    = Main.jumpLoop sin_id (dec 2 10) Main.baseY Main.stationaryPositions.
Proof.
  split; [reflexivity|]. split; [apply Permutation_rev|].
  apply (jumpLoop_order_irrelevant sin_id (dec 2 10) Main.baseY
           (rev Main.stationaryPositions)); [reflexivity|apply Permutation_rev].
Defined.

Lemma scene_drawn_at_stored_position_witness :
  valid (of_int 1) = true /\
  nth_error Main.generateRectangles 5 = Some (nth 5 Main.generateRectangles rect0) /\
  (of_int 1 <! of_int (Z.of_nat 5 - 4) *! Main.delayBetweenRectangles) = true /\
  nth_error (Render.drawRectangles sin_id Main.generateRectangles (of_int 1)) 5
    = Some (Render.mkDrawCall (position (nth 5 Main.generateRectangles rect0))
                              (color (nth 5 Main.generateRectangles rect0))).
Proof.
  split; [reflexivity|]. split; [reflexivity|]. split; [reflexivity|].
  apply (scene_drawn_at_stored_position sin_id (of_int 1) 5
           (nth 5 Main.generateRectangles rect0)); [reflexivity|reflexivity|].
  right. reflexivity.
Defined.

Lemma sin_neg_unit (a : float) :
  valid a = true -> is_finite a = true ->
  valid (sin_neg a) = true /\
  leb (neg (of_int 1)) (sin_neg a) = true /\ leb (sin_neg a) (of_int 1) = true.
Proof. intros _ _. repeat split. Defined.

Lemma backgroundColor_range_witness :
  (forall a : float,
     valid a = true -> is_finite a = true ->
     valid (sin_neg a) = true /\
     leb (neg (of_int 1)) (sin_neg a) = true /\ leb (sin_neg a) (of_int 1) = true) /\
  fin (of_int 3) /\ leb (of_int 0) (of_int 3) = true /\
  (leb (dec 15 100) (vx (Render.backgroundColor sin_neg (of_int 3))) = true /\
   leb (vx (Render.backgroundColor sin_neg (of_int 3))) (dec 15 100 +! dec 35 100) = true) /\
  (leb (dec 12 100) (vy (Render.backgroundColor sin_neg (of_int 3))) = true /\
   leb (vy (Render.backgroundColor sin_neg (of_int 3))) (dec 12 100 +! dec 35 100) = true) /\
  (leb (dec 2 10) (vz (Render.backgroundColor sin_neg (of_int 3))) = true /\
   leb (vz (Render.backgroundColor sin_neg (of_int 3))) (dec 2 10 +! dec 35 100) = true).
Proof.
  assert (F : fin (of_int 3)) by fin_const.
  split; [exact sin_neg_unit|]. split; [exact F|]. split; [reflexivity|].
  exact (backgroundColor_range sin_neg sin_neg_unit (of_int 3) F eq_refl).
Defined.

Lemma generateRectangle_extent_witness :
  fin (dec 12 100) /\ fin (dec 18 100) /\
  leb two_pow_m125 (dec 12 100) = true /\ leb two_pow_m125 (dec 18 100) = true /\
  Render.vertexCount (Render.generateRectangle (dec 12 100) (dec 18 100)) = 6 /\
  nth 3 (Render.vertices (Render.generateRectangle (dec 12 100) (dec 18 100))) S754_nan
    -! nth 0 (Render.vertices (Render.generateRectangle (dec 12 100) (dec 18 100))) S754_nan
    = dec 12 100 /\
  nth 7 (Render.vertices (Render.generateRectangle (dec 12 100) (dec 18 100))) S754_nan
    -! nth 1 (Render.vertices (Render.generateRectangle (dec 12 100) (dec 18 100))) S754_nan
    = dec 18 100.
Proof.
  assert (Fw : fin (dec 12 100)) by fin_const.
  assert (Fh : fin (dec 18 100)) by fin_const.
  split; [exact Fw|]. split; [exact Fh|]. split; [reflexivity|]. split; [reflexivity|].
  exact (generateRectangle_extent (dec 12 100) (dec 18 100) Fw Fh eq_refl eq_refl).
Defined.
